(** * Verification of sungo/dataloader (main.go)

    Shallow embedding of the Go package [dataloader]:
    - [chunk], the slice partitioning helper, with Go's run-time panics;
    - the select loop of [Loader.run] that aggregates chunk outcomes,
      as a step relation over the goroutines and unbuffered channels;
    - the [Loader] itself ([New], [LoadMany], [Load], [run]) as a step
      relation over a world of caller goroutines, run goroutines and batches. *)

From Stdlib Require Import ZArith Lia.
From stdpp Require Import base list gmap sets strings.

Open Scope Z_scope.

(** ** Go run-time results *)

(** A Go call either returns a value or panics with a run-time error. *)
Inductive go_result (A : Type) : Type :=
| Ret (a : A)
| Panic (msg : string).
Arguments Ret {A} a.
Arguments Panic {A} msg.

(** ** [chunk]

<<
func chunk[T any](items []T, size int) [][]T {
	chunks := make([][]T, 0, (len(items)/size)+1)
	for size < len(items) {
		items, chunks = items[size:], append(chunks, items[0:size:size])
	}
	return append(chunks, items)
}
>>
    Go's [/] on [int] truncates toward zero ([Z.quot]) and panics on a zero
    divisor; [make] panics on a negative capacity; [items[size:]] panics on a
    negative index.  The [for] loop is run with a fuel bound: [None] means the
    fuel ran out (the loop did not finish within [fuel] iterations). *)
Section Chunk.
Context {T : Type}.

Fixpoint chunk_loop (fuel : nat) (items : list T) (size : Z)
    (chunks : list (list T)) : option (go_result (list (list T))) :=
  if size <? Z.of_nat (length items) then
    if size <? 0 then Some (Panic "slice bounds out of range")
    else match fuel with
         | O => None
         | S fuel' =>
             chunk_loop fuel' (skipn (Z.to_nat size) items) size
               (chunks ++ [firstn (Z.to_nat size) items])
         end
  else Some (Ret (chunks ++ [items])).

Definition chunk_fuel (fuel : nat) (items : list T) (size : Z)
    : option (go_result (list (list T))) :=
  if size =? 0 then Some (Panic "integer divide by zero")
  else if Z.quot (Z.of_nat (length items)) size + 1 <? 0
  then Some (Panic "makeslice: cap out of range")
  else chunk_loop fuel items size [].

(** Each iteration removes at least one element when [size] is positive, so
    [length items] iterations are always enough (see [chunk_terminates]). *)
Definition chunk (items : list T) (size : Z) : option (go_result (list (list T))) :=
  chunk_fuel (length items) items size.

End Chunk.

(** ** Batches, loaders and the aggregation loop of [Loader.run] *)
Section Model.
Context `{Countable K} {V E : Type}.
(** Go's zero value of [V], returned for keys absent from a result map. *)
Variable zero : V.

(** [type FetchFunc[K comparable, V any] func([]K) (map[K]V, error)];
    a [nil] error is [None]. *)
Definition FetchFunc : Type := list K -> gmap K V * option E.

(** What a chunk goroutine sends: [resultChan <- results] or [errChan <- err]. *)
Inductive outcome : Type :=
| Ok (m : gmap K V)
| Failed (e : E).

(** The body of a chunk goroutine:
<<
results, err := bat.fn(chunk)
if err != nil { errChan <- err; return }
resultChan <- results
>> *)
Definition outcome_of (r : gmap K V * option E) : outcome :=
  match r.2 with
  | Some e => Failed e
  | None => Ok r.1
  end.

(** State of the aggregation in [run]: for each chunk goroutine, the message
    it has still to send ([Some o]: still computing or blocked on its send;
    [None]: its send was received and it called [wg.Done()]); whether the
    WaitGroup goroutine has closed [wgChan]; whether the [select] loop has
    left by [break loop]; [bat.results]; [bat.err]. *)
Record loop_state : Type := mkLoop {
  pending : list (option outcome);
  wg_closed : bool;
  exited : bool;
  acc : gmap K V;
  lerr : option E
}.

(** The channels are unbuffered: a send completes only together with a
    receive of the [select] loop, which runs until [break loop].
<<
loop:
	for {
		select {
		case results := <-resultChan:
			for key := range results { bat.results[key] = results[key] }
		case err := <-errChan:
			bat.err = err
			break loop
		case <-wgChan:
			break loop
		}
	}
>>
    The WaitGroup goroutine closes [wgChan] once every chunk goroutine is done. *)
Inductive loop_step : loop_state -> loop_state -> Prop :=
| LRecvResult s i m :
    exited s = false ->
    pending s !! i = Some (Some (Ok m)) ->
    loop_step s (mkLoop (<[i := None]> (pending s)) (wg_closed s) false
                   (m ∪ acc s) (lerr s))
| LRecvErr s i e :
    exited s = false ->
    pending s !! i = Some (Some (Failed e)) ->
    loop_step s (mkLoop (<[i := None]> (pending s)) (wg_closed s) true
                   (acc s) (Some e))
| LCloseWg s :
    wg_closed s = false ->
    Forall (fun p => p = None) (pending s) ->
    loop_step s (mkLoop (pending s) true (exited s) (acc s) (lerr s))
| LRecvWg s :
    exited s = false ->
    wg_closed s = true ->
    loop_step s (mkLoop (pending s) (wg_closed s) true (acc s) (lerr s)).

(** All chunk goroutines started, nothing received yet; [bat.err] is nil. *)
Definition loop_init (os : list outcome) (results0 : gmap K V) : loop_state :=
  mkLoop (map Some os) false false results0 None.

(** [type batch[K, V] struct]: [ch] is reduced to whether it is closed; the
    mutex is modelled by the atomicity of the steps of [step] below and by
    the read locks that are never released ([read_locked]). *)
Record batch : Type := mkBatch {
  batchSize : Z;
  bat_fn : FetchFunc;
  keys : gset K;
  results : gmap K V;
  err : option E;
  ch_closed : bool
}.

(** [type Loader[K, V] struct]; [currentBatch] is an index into the batches
    of the world ([None] is [nil]). *)
Record Loader : Type := mkLoader {
  BatchSize : Z;
  Delay : Z;
  fn : FetchFunc;
  currentBatch : option nat
}.

(** [time.Duration] counts nanoseconds. *)
Definition Millisecond : Z := 1000000.
Definition defaultBatchSize : Z := 1000.
Definition defaultDelay : Z := 5 * Millisecond.

Definition new_loader (f : FetchFunc) : Loader :=
  mkLoader defaultBatchSize defaultDelay f None.

(** [func New(fn FetchFunc[K, V]) (pointer to Loader, error)]; a pointer is an
    [option] ([None] is [nil]). *)
Definition New (f : FetchFunc) : option Loader * option E :=
  (Some (new_loader f), None).

(** The batch [LoadMany] allocates when no batch is current. *)
Definition new_batch (l : Loader) : batch :=
  mkBatch (BatchSize l) (fn l) ∅ ∅ None false.

(** [for _, key := range keys { bat.keys[key] = true }] *)
Definition add_keys (bt : batch) (ks : list K) : batch :=
  mkBatch (batchSize bt) (bat_fn bt) (keys bt ∪ list_to_set ks) (results bt)
    (err bt) (ch_closed bt).

(** The end of [run]: the aggregated [bat.results] and [bat.err], then
    [close(bat.ch)]. *)
Definition resolved (bt : batch) (s : loop_state) : batch :=
  mkBatch (batchSize bt) (bat_fn bt) (keys bt) (acc s) (lerr s) true.

(** The tail of [LoadMany], after [<-ch]:
<<
results := make(map[K]V)
if bat.err != nil { return results, bat.err }
for _, key := range keys { results[key] = bat.results[key] }
return results, nil
>> *)
Definition loadmany_result (bt : batch) (ks : list K) : gmap K V * option E :=
  match err bt with
  | Some e => (∅, Some e)
  | None =>
      (foldl (fun r k => <[k := default zero (results bt !! k)]> r) ∅ ks, None)
  end.

(** [Load]: [results, err := loader.LoadMany(key)];
    [if err != nil { return empty, err }]; [return results[key], nil]. *)
Definition load_of (r : gmap K V * option E) (k : K) : V * option E :=
  match r.2 with
  | Some e => (zero, Some e)
  | None => (default zero (r.1 !! k), None)
  end.

(** ** The world: caller goroutines, run goroutines and batches *)

(** A goroutine inside [LoadMany(keys...)]: before taking [loader.mut];
    holding [bat] after releasing [loader.mut]; blocked on [<-ch] after
    adding its keys; returned. Batches are named by their index. *)
Inductive caller : Type :=
| CStart (ks : list K)
| CGot (b : nat) (ks : list K)
| CWait (b : nat) (ks : list K)
| CDone (b : nat) (ks : list K) (ret : gmap K V * option E).

(** A [go loader.run()] goroutine: started; sleeping for [d]; holding the
    batch it detached; finished. *)
Inductive runner : Type :=
| RStart
| RSleep (d : Z)
| RTaken (b : nat)
| RDone.

(** [fetched] is a ghost log of every [bat.fn(chunk)] call, with its batch. *)
Record world : Type := mkWorld {
  loader : Loader;
  batches : list batch;
  runs : list runner;
  callers : list caller;
  fetched : list (nat * list K)
}.

Definition set_current (l : Loader) (c : option nat) : Loader :=
  mkLoader (BatchSize l) (Delay l) (fn l) c.

(** [LoadMany] takes [bat.mut.RLock()] after [<-ch], and returns through
<<
if bat.err != nil {
	return results, bat.err
}
>>
    without [bat.mut.RUnlock()]: a caller that returned with an error from
    batch [b] holds a read lock on [b]'s mutex forever. *)
Definition read_locked (b : nat) (c : caller) : bool :=
  match c with
  | CDone b' _ (_, Some _) => Nat.eqb b' b
  | _ => false
  end.

(** One atomic step of some goroutine.  Each step is a critical section of
    the Go code ([loader.mut] or [bat.mut]), or a write of the exported
    configuration fields by user code.  A [bat.mut.Lock()] is taken at the
    step where it succeeds, which needs every read lock released: [SInsert]
    cannot happen while a caller of the batch holds the read lock it never
    released ([read_locked]).  [run] holds [bat.mut] from the moment
    it reads the keys until [close(bat.ch)] and its deferred unlock, so that
    part is one step, [SResolve]; the keys are read in any order (Go map
    iteration), and the chunk goroutines report in any order ([loop_step]).
    A panic in [run] (non-positive [batchSize]) crashes the program: no step. *)
Inductive step : world -> world -> Prop :=
| SLockCreate w i ks :
    (* if loader.currentBatch == nil { loader.currentBatch = &batch{...}; go loader.run() } *)
    callers w !! i = Some (CStart ks) ->
    currentBatch (loader w) = None ->
    step w (mkWorld (set_current (loader w) (Some (length (batches w))))
              (batches w ++ [new_batch (loader w)])
              (runs w ++ [RStart])
              (<[i := CGot (length (batches w)) ks]> (callers w))
              (fetched w))
| SLockJoin w i ks b :
    (* bat := loader.currentBatch *)
    callers w !! i = Some (CStart ks) ->
    currentBatch (loader w) = Some b ->
    step w (mkWorld (loader w) (batches w) (runs w)
              (<[i := CGot b ks]> (callers w)) (fetched w))
| SInsert w i b ks bt :
    (* bat.mut.Lock(); for _, key := range keys { bat.keys[key] = true }; ch := bat.ch *)
    callers w !! i = Some (CGot b ks) ->
    batches w !! b = Some bt ->
    existsb (read_locked b) (callers w) = false ->
    step w (mkWorld (loader w) (<[b := add_keys bt ks]> (batches w)) (runs w)
              (<[i := CWait b ks]> (callers w)) (fetched w))
| SReturn w i b ks bt :
    (* <-ch, then the results *)
    callers w !! i = Some (CWait b ks) ->
    batches w !! b = Some bt ->
    ch_closed bt = true ->
    step w (mkWorld (loader w) (batches w) (runs w)
              (<[i := CDone b ks (loadmany_result bt ks)]> (callers w))
              (fetched w))
| SSetBatchSize w n :
    step w (mkWorld (mkLoader n (Delay (loader w)) (fn (loader w))
                       (currentBatch (loader w)))
              (batches w) (runs w) (callers w) (fetched w))
| SSetDelay w d :
    step w (mkWorld (mkLoader (BatchSize (loader w)) d (fn (loader w))
                       (currentBatch (loader w)))
              (batches w) (runs w) (callers w) (fetched w))
| SSleep w j :
    (* time.Sleep(loader.Delay) *)
    runs w !! j = Some RStart ->
    step w (mkWorld (loader w) (batches w)
              (<[j := RSleep (Delay (loader w))]> (runs w)) (callers w) (fetched w))
| STake w j d b :
    (* loader.mut.Lock(); bat := loader.currentBatch; loader.currentBatch = nil *)
    runs w !! j = Some (RSleep d) ->
    currentBatch (loader w) = Some b ->
    step w (mkWorld (set_current (loader w) None) (batches w)
              (<[j := RTaken b]> (runs w)) (callers w) (fetched w))
| SResolve w j b bt ks cs s :
    (* bat.mut.Lock(); keys; chunks := chunk(keys, bat.batchSize); ...; close(bat.ch) *)
    runs w !! j = Some (RTaken b) ->
    batches w !! b = Some bt ->
    ks ≡ₚ elements (keys bt) ->
    chunk ks (batchSize bt) = Some (Ret cs) ->
    rtc loop_step
      (loop_init (map (fun c => outcome_of (bat_fn bt c)) cs) (results bt)) s ->
    exited s = true ->
    step w (mkWorld (loader w) (<[b := resolved bt s]> (batches w))
              (<[j := RDone]> (runs w)) (callers w)
              (fetched w ++ map (fun c => (b, c)) cs)).

(** A fresh loader from [New f], and one caller goroutine per key list. *)
Definition init_world (f : FetchFunc) (reqs : list (list K)) : world :=
  mkWorld (new_loader f) [] [] (map CStart reqs) [].

(** ** Invariants used in the proofs *)

(** Invariant of the loop started on outcomes [os] and results [r0]. *)
Definition loop_inv (os : list outcome) (r0 : gmap K V) (s : loop_state) : Prop :=
  length (pending s) = length os /\
  (forall i o, pending s !! i = Some (Some o) -> os !! i = Some o) /\
  (lerr s = None -> forall i e, os !! i = Some (Failed e) ->
     pending s !! i = Some (Some (Failed e))) /\
  (wg_closed s = true -> Forall (fun p => p = None) (pending s)) /\
  (exited s = true -> lerr s = None -> wg_closed s = true) /\
  (forall e, lerr s = Some e -> Failed e ∈ os) /\
  (forall k, is_Some (acc s !! k) ->
     is_Some (r0 !! k) \/ exists i m, os !! i = Some (Ok m) /\ is_Some (m !! k)).

(** Two views of a batch that [wf] cannot tell apart: only [keys] may differ. *)
Definition same_but_keys (bt bt' : batch) : Prop :=
  batchSize bt = batchSize bt' /\ bat_fn bt = bat_fn bt' /\
  results bt = results bt' /\ err bt = err bt' /\ ch_closed bt = ch_closed bt'.

Variable f : FetchFunc.

(** Invariant of every world reachable from [init_world f]. *)
Record wf (w : world) : Prop := {
  wf_fn : fn (loader w) = f;
  wf_bat_fn : forall b bt, batches w !! b = Some bt -> bat_fn bt = f;
  wf_taken : forall j b, runs w !! j = Some (RTaken b) ->
    exists bt, batches w !! b = Some bt /\ ch_closed bt = false;
  wf_taken_uniq : forall j j' b, runs w !! j = Some (RTaken b) ->
    runs w !! j' = Some (RTaken b) -> j = j';
  wf_current : forall b, currentBatch (loader w) = Some b ->
    (exists bt, batches w !! b = Some bt /\ ch_closed bt = false) /\
    (forall j, runs w !! j <> Some (RTaken b));
  wf_done : forall i b ks r, callers w !! i = Some (CDone b ks r) ->
    exists bt, batches w !! b = Some bt /\ ch_closed bt = true /\
      loadmany_result bt ks = r;
  wf_fetched : forall b c, (b, c) ∈ fetched w ->
    exists bt, batches w !! b = Some bt /\ ch_closed bt = true /\
      ((f c).2 <> None -> exists e, err bt = Some e) /\
      exists ks cs, chunk ks (batchSize bt) = Some (Ret cs) /\ c ∈ cs;
  wf_err : forall b bt e, batches w !! b = Some bt -> err bt = Some e ->
    exists c, (b, c) ∈ fetched w /\ (f c).2 = Some e;
  wf_results : forall b bt k, batches w !! b = Some bt ->
    is_Some (results bt !! k) ->
    exists c, (b, c) ∈ fetched w /\ (f c).2 = None /\ is_Some ((f c).1 !! k)
}.

End Model.

(** ** Measures and views used in the proofs *)
Section Views.
Context `{Countable K} {V E : Type}.

(** Chunk goroutines whose send the [select] loop has not received yet. *)
Definition pending_count (s : @loop_state K _ _ V E) : nat :=
  length (omap id (pending s)).

(** Each step of the [select] loop lowers this: a receive consumes a
    pending send, [wgChan] is closed once and the loop is left once. *)
Definition loop_measure (s : @loop_state K _ _ V E) : nat :=
  (2 * pending_count s + (if wg_closed s then 0 else 1)
   + (if exited s then 0 else 1))%nat.

(** What the loop started on outcomes [os] and results [r0] has merged:
    the map of every received successful chunk, and only values that were
    already there or come from such a map. *)
Definition loop_merged (os : list (@outcome K _ _ V E)) (r0 : gmap K V)
    (s : @loop_state K _ _ V E) : Prop :=
  (forall i m k, os !! i = Some (Ok m) -> pending s !! i = Some None ->
     is_Some (m !! k) -> is_Some (acc s !! k)) /\
  (forall k v, acc s !! k = Some v ->
     r0 !! k = Some v \/ exists i m, os !! i = Some (Ok m) /\ m !! k = Some v).

(** The chunks [bat.fn] was called on for batch [b], in the order of the log. *)
Definition fetched_of (b : nat) (fl : list (nat * list K)) : list (list K) :=
  map snd (filter (fun p => p.1 = b) fl).

(** Caller [i] has added [ks] to the keys of batch [b]: it is blocked on
    [<-ch] or has returned. *)
Definition joined (cl : list (@caller K _ _ V E)) (i b : nat) (ks : list K) : Prop :=
  cl !! i = Some (CWait b ks) \/ exists r, cl !! i = Some (CDone b ks r).

(** Keys, fetch calls and results of every batch: each key was added by a
    caller of the batch; [bat.fn] was called on the chunks of one
    duplicate-free list of its keys, or not yet; every value of
    [bat.results] was returned by a successful call of [f] on a chunk of the
    batch; and without an error every successful chunk's map was merged. *)
Definition dispatch_inv (f : @FetchFunc K _ _ V E) (w : @world K _ _ V E) : Prop :=
  (forall b bt k, batches w !! b = Some bt -> k ∈ keys bt ->
     exists i ks, joined (callers w) i b ks /\ k ∈ ks) /\
  (forall b bt, batches w !! b = Some bt ->
     fetched_of b (fetched w) = [] \/
     exists ks, NoDup ks /\ (forall k, k ∈ ks -> k ∈ keys bt) /\
       chunk ks (batchSize bt) = Some (Ret (fetched_of b (fetched w)))) /\
  (forall b bt k v, batches w !! b = Some bt -> results bt !! k = Some v ->
     exists c, (b, c) ∈ fetched w /\ (f c).2 = None /\ (f c).1 !! k = Some v) /\
  (forall b bt c k, batches w !! b = Some bt -> err bt = None ->
     (b, c) ∈ fetched w -> (f c).2 = None -> is_Some ((f c).1 !! k) ->
     is_Some (results bt !! k)).

End Views.

(** ** Concrete instances: keys and values are [nat], errors are [string] *)

(** A fetch function echoing [k + 1] for every key [k] (as the tests do). *)
Definition echo (ks : list nat) : gmap nat nat * option string :=
  (list_to_map (map (fun k => (k, S k)) ks), None).

(** A fetch function that always fails. *)
Definition fail_all (ks : list nat) : gmap nat nat * option string :=
  (∅, Some "fetch failed").

(** A fetch function that fails on chunks containing key 2. *)
Definition fail_on_2 (ks : list nat) : gmap nat nat * option string :=
  if bool_decide (2%nat ∈ ks) then (∅, Some "fetch failed") else echo ks.

(** A fetch function that never returns key 9. *)
Definition echo_but_9 (ks : list nat) : gmap nat nat * option string :=
  echo (filter (fun k => k <> 9%nat) ks).

(** The world with one caller of [LoadMany()], and the world after that
    caller's first critical section. *)
Definition w_empty0 : @world nat _ _ nat string := init_world echo [[]].
Definition w_empty1 : @world nat _ _ nat string :=
  mkWorld (set_current (new_loader echo) (Some 0%nat))
    [new_batch (new_loader echo)] [RStart] [CGot 0 []] [].

(** A world where one batch was just allocated, its run goroutine not yet
    asleep, and the same world after that goroutine reads [Delay]. *)
Definition w_fresh : @world nat _ _ nat string :=
  mkWorld (set_current (new_loader echo) (Some 0%nat))
    [new_batch (new_loader echo)] [RStart] [CGot 0 [7%nat]] [].
Definition w_fresh_asleep : @world nat _ _ nat string :=
  mkWorld (set_current (new_loader echo) (Some 0%nat))
    [new_batch (new_loader echo)] [RSleep defaultDelay] [CGot 0 [7%nat]] [].

(** ** Tests of [chunk] *)

Example chunk_ex1 : chunk [1;2;3;4;5]%nat 2 = Some (Ret [[1;2];[3;4];[5]]%nat).
Proof. reflexivity. Qed.
Example chunk_ex2 : chunk ([] : list nat) 1000 = Some (Ret [[]]).
Proof. reflexivity. Qed.
Example chunk_ex3 : chunk [1]%nat 0 = Some (Panic "integer divide by zero").
Proof. reflexivity. Qed.
Example chunk_ex4 : chunk ([] : list nat) (-1) = Some (Panic "slice bounds out of range").
Proof. reflexivity. Qed.
Example chunk_ex5 : chunk [1;2]%nat (-1) = Some (Panic "makeslice: cap out of range").
Proof. reflexivity. Qed.

(** ** Properties of [chunk] *)
Section ChunkProofs.
Context {T : Type}.

Lemma chunk_loop_pos (fuel : nat) (items : list T) (size : Z) (chunks : list (list T)) :
  0 < size -> (length items <= fuel)%nat ->
  exists cs,
    chunk_loop fuel items size chunks = Some (Ret (chunks ++ cs)) /\
    concat cs = items /\
    (items <> [] -> Forall (fun c => (1 <= length c <= Z.to_nat size)%nat) cs) /\
    (Z.of_nat (length items) <= size -> cs = [items]).
Proof.
  intros Hpos. revert items chunks.
  induction fuel as [|fuel IH]; intros items chunks Hlen; simpl.
  - destruct items; [|simpl in Hlen; lia]. simpl.
    change (Z.of_nat 0) with 0.
    destruct (size <? 0) eqn:E; [apply Z.ltb_lt in E; lia|].
    exists [[]]. split; [reflexivity|]. split; [reflexivity|].
    split; [intros Hne; congruence|reflexivity].
  - destruct (size <? Z.of_nat (length items)) eqn:Hlt.
    + apply Z.ltb_lt in Hlt.
      destruct (size <? 0) eqn:Hneg; [apply Z.ltb_lt in Hneg; lia|].
      set (n := Z.to_nat size).
      assert (Hn : (0 < n < length items)%nat) by (subst n; lia).
      destruct (IH (skipn n items) (chunks ++ [firstn n items]))
        as (cs & Hrun & Hcat & Hsz & Hone).
      { rewrite length_skipn. lia. }
      exists (firstn n items :: cs). rewrite Hrun, <- app_assoc. simpl.
      repeat split; auto.
      * simpl. rewrite Hcat. apply take_drop.
      * intros _. constructor.
        -- rewrite length_firstn. lia.
        -- apply Hsz. intros Hnil.
           assert (length (skipn n items) = 0)%nat by (rewrite Hnil; auto).
           rewrite length_skipn in *. lia.
      * intros. lia.
    + apply Z.ltb_ge in Hlt.
      exists [items]. repeat split; auto.
      * simpl. apply app_nil_r.
      * intros Hne. constructor; [|constructor].
        destruct items; [congruence|]. simpl in *. lia.
Qed.

Lemma chunk_pos (items : list T) (size : Z) :
  0 < size ->
  exists cs,
    chunk items size = Some (Ret cs) /\
    concat cs = items /\
    (items <> [] -> Forall (fun c => (1 <= length c <= Z.to_nat size)%nat) cs) /\
    (Z.of_nat (length items) <= size -> cs = [items]).
Proof.
  intros Hpos. unfold chunk, chunk_fuel.
  destruct (size =? 0) eqn:E0; [apply Z.eqb_eq in E0; lia|].
  destruct (Z.quot (Z.of_nat (length items)) size + 1 <? 0) eqn:Ecap.
  { apply Z.ltb_lt in Ecap.
    assert (0 <= Z.quot (Z.of_nat (length items)) size) by (apply Z.quot_pos; lia).
    lia. }
  apply (chunk_loop_pos (length items) items size []); auto.
Qed.

Lemma chunk_nonpos (items : list T) (size : Z) (fuel : nat) :
  size <= 0 -> exists msg, chunk_fuel fuel items size = Some (Panic msg).
Proof.
  intros Hle. unfold chunk_fuel.
  destruct (size =? 0) eqn:E0; [eauto|].
  apply Z.eqb_neq in E0.
  destruct (_ + 1 <? 0); [eauto|].
  destruct fuel; simpl;
    (destruct (size <? Z.of_nat (length items)) eqn:Hlt;
     [destruct (size <? 0) eqn:Hneg; [eauto|apply Z.ltb_ge in Hneg; lia]
     |apply Z.ltb_ge in Hlt; lia]).
Qed.

End ChunkProofs.

(** ** The aggregation loop of [run] *)
Section LoopProofs.
Context `{Countable K} {V E : Type}.
Implicit Types (os : list (@outcome K _ _ V E)) (s : @loop_state K _ _ V E).


Lemma loop_inv_init os r0 : loop_inv os r0 (loop_init os r0).
Proof.
  unfold loop_inv, loop_init; simpl. repeat split.
  - apply length_map.
  - intros i o Hi. rewrite list_lookup_fmap in Hi.
    destruct (os !! i); simpl in *; congruence.
  - intros _ i e Hi. rewrite list_lookup_fmap, Hi. reflexivity.
  - discriminate.
  - discriminate.
  - discriminate.
  - intros k Hk. left. exact Hk.
Qed.

Lemma loop_inv_step os r0 s s' :
  loop_inv os r0 s -> loop_step s s' -> loop_inv os r0 s'.
Proof.
  intros (Hlen & Hpend & Herr & Hwg & Hex & Hin & Hacc) Hstep.
  destruct Hstep as [s i m Hx Hi|s i e Hx Hi|s Hw Hall|s Hx Hw];
    unfold loop_inv; simpl.
  - repeat split.
    + rewrite length_insert. exact Hlen.
    + intros j o Hj. destruct (decide (i = j)) as [->|Hne].
      * rewrite list_lookup_insert_eq in Hj; [discriminate|].
        apply lookup_lt_Some in Hi. exact Hi.
      * rewrite list_lookup_insert_ne in Hj by exact Hne. eauto.
    + intros Hn j e Hj. destruct (decide (i = j)) as [->|Hne].
      * apply Hpend in Hi. congruence.
      * rewrite list_lookup_insert_ne by exact Hne. eauto.
    + intros Hc. apply Hwg in Hc. rewrite Forall_lookup in Hc.
      apply Hc in Hi. discriminate.
    + discriminate.
    + exact Hin.
    + intros k Hk. rewrite lookup_union in Hk.
      destruct (m !! k) eqn:Hm.
      * right. exists i, m. split; [apply Hpend; exact Hi|rewrite Hm; eauto].
      * rewrite (left_id_L None _) in Hk. apply Hacc. exact Hk.
  - repeat split.
    + rewrite length_insert. exact Hlen.
    + intros j o Hj. destruct (decide (i = j)) as [->|Hne].
      * rewrite list_lookup_insert_eq in Hj; [discriminate|].
        apply lookup_lt_Some in Hi. exact Hi.
      * rewrite list_lookup_insert_ne in Hj by exact Hne. eauto.
    + discriminate.
    + intros Hc. apply Hwg in Hc. rewrite Forall_lookup in Hc.
      apply Hc in Hi. discriminate.
    + discriminate.
    + intros e' He'. injection He' as <-.
      apply Hpend in Hi. eapply list_elem_of_lookup_2. exact Hi.
    + exact Hacc.
  - repeat split; auto.
  - repeat split; auto.
Qed.

Lemma loop_inv_rtc os r0 s :
  rtc loop_step (loop_init os r0) s -> loop_inv os r0 s.
Proof.
  intros Hr. remember (loop_init os r0) as s0 eqn:Hs0.
  assert (Hinit : loop_inv os r0 s0) by (subst; apply loop_inv_init).
  clear Hs0. induction Hr as [x|x y z Hxy Hyz IH]; auto.
  apply IH. eapply loop_inv_step; eauto.
Qed.

(** If some chunk fails, the loop leaves with one of the chunks' errors. *)
Lemma loop_exit_failed os r0 s e0 :
  rtc loop_step (loop_init os r0) s -> exited s = true -> Failed e0 ∈ os ->
  exists e, lerr s = Some e /\ Failed e ∈ os.
Proof.
  intros Hr Hx Hf.
  destruct (loop_inv_rtc _ _ _ Hr) as (_ & _ & Herr & Hwg & Hex & Hin & _).
  destruct (lerr s) as [e|] eqn:Hl; [eauto|].
  exfalso. apply list_elem_of_lookup_1 in Hf as [i Hi].
  specialize (Herr eq_refl i e0 Hi).
  specialize (Hwg (Hex Hx eq_refl)). rewrite Forall_lookup in Hwg.
  apply Hwg in Herr. discriminate.
Qed.

(** Every key of the aggregated results was there before or comes from the
    map of a successful chunk. *)
Lemma loop_acc_from os r0 s k :
  rtc loop_step (loop_init os r0) s -> is_Some (acc s !! k) ->
  is_Some (r0 !! k) \/ exists i m, os !! i = Some (Ok m) /\ is_Some (m !! k).
Proof.
  intros Hr. destruct (loop_inv_rtc _ _ _ Hr) as (_ & _ & _ & _ & _ & _ & Hacc).
  apply Hacc.
Qed.

End LoopProofs.

(** ** Invariant of the loader world *)
Section WorldProofs.
Context `{Countable K} {V E : Type}.
Variable zero : V.
Variable f : @FetchFunc K _ _ V E.
Implicit Types (w : @world K _ _ V E) (bt : @batch K _ _ V E)
  (bs : list (@batch K _ _ V E)).

Lemma lookup_insert_cases {A} (l : list A) i j x y :
  <[i := x]> l !! j = Some y -> (i = j /\ x = y) \/ (i <> j /\ l !! j = Some y).
Proof. rewrite list_lookup_insert_Some. naive_solver. Qed.

Lemma lookup_insert_keep {A} (l : list A) i j x y :
  l !! j = Some y -> i <> j -> <[i := x]> l !! j = Some y.
Proof. intros Hj Hne. rewrite list_lookup_insert_ne by exact Hne. exact Hj. Qed.

Lemma lookup_insert_here {A} (l : list A) i x y :
  l !! i = Some y -> <[i := x]> l !! i = Some x.
Proof. intros Hi. apply list_lookup_insert_eq. eapply lookup_lt_Some. exact Hi. Qed.

Lemma lookup_snoc_cases {A} (l : list A) j x y :
  (l ++ [x]) !! j = Some y -> l !! j = Some y \/ (j = length l /\ x = y).
Proof. rewrite lookup_snoc_Some. naive_solver. Qed.

Lemma elem_of_pair_map {A B} (a a' : A) (b : B) (l : list B) :
  (a', b) ∈ map (fun c => (a, c)) l -> a' = a /\ b ∈ l.
Proof.
  rewrite !list_elem_of_In, in_map_iff. intros (c & Hc & Hin).
  injection Hc as -> ->. auto.
Qed.


Lemma wf_init reqs : wf zero f (init_world f reqs).
Proof.
  constructor; simpl; try reflexivity.
  all: intros *; rewrite ?lookup_nil; try discriminate.
  - intros Hi. rewrite list_lookup_fmap in Hi.
    destruct (reqs !! i); discriminate.
  - intros Hin. apply elem_of_nil in Hin. contradiction.
Qed.


Lemma same_but_keys_refl bt : same_but_keys bt bt.
Proof. repeat split. Qed.

Lemma same_but_keys_result bt bt' ks :
  same_but_keys bt bt' -> loadmany_result zero bt ks = loadmany_result zero bt' ks.
Proof.
  intros (_ & _ & Hr & He & _). unfold loadmany_result. rewrite Hr, He. reflexivity.
Qed.

Lemma same_but_keys_l bs bs' b bt :
  Forall2 same_but_keys bs bs' -> bs !! b = Some bt ->
  exists bt', bs' !! b = Some bt' /\ same_but_keys bt bt'.
Proof. intros HF Hb. eapply Forall2_lookup_l; eauto. Qed.

Lemma same_but_keys_r bs bs' b bt' :
  Forall2 same_but_keys bs bs' -> bs' !! b = Some bt' ->
  exists bt, bs !! b = Some bt /\ same_but_keys bt bt'.
Proof. intros HF Hb. eapply Forall2_lookup_r; eauto. Qed.

Lemma same_but_keys_diag bs : Forall2 same_but_keys bs bs.
Proof.
  apply Forall_Forall2_diag, Forall_forall. intros. apply same_but_keys_refl.
Qed.

Lemma same_but_keys_add bs b bt ks :
  bs !! b = Some bt -> Forall2 same_but_keys bs (<[b := add_keys bt ks]> bs).
Proof.
  intros Hb. apply Forall2_lookup. intros i.
  destruct (decide (b = i)) as [<-|Hne].
  - rewrite (lookup_insert_here _ _ _ _ Hb), Hb. constructor. repeat split.
  - rewrite list_lookup_insert_ne by exact Hne.
    destruct (bs !! i); constructor. apply same_but_keys_refl.
Qed.

(** Steps that neither detach nor resolve a batch. *)
Lemma wf_frame w w' :
  wf zero f w ->
  fn (loader w') = fn (loader w) ->
  (forall b, currentBatch (loader w') = Some b -> currentBatch (loader w) = Some b) ->
  (forall j b, runs w' !! j = Some (RTaken b) -> runs w !! j = Some (RTaken b)) ->
  (forall i b ks r, callers w' !! i = Some (CDone b ks r) ->
     callers w !! i = Some (CDone b ks r) \/
     exists bt, batches w !! b = Some bt /\ ch_closed bt = true /\
       loadmany_result zero bt ks = r) ->
  fetched w' = fetched w ->
  Forall2 same_but_keys (batches w) (batches w') ->
  wf zero f w'.
Proof.
  intros [Hfn Hbf Ht Hu Hc Hd Hf He Hr] Hfn' Hcur' Hrun' Hcall' Hfet' HF.
  constructor.
  - rewrite Hfn'. exact Hfn.
  - intros b bt' Hb'. destruct (same_but_keys_r _ _ _ _ HF Hb') as (bt & Hb & S).
    destruct S as (_ & <- & _). eauto.
  - intros j b Hj. destruct (Ht _ _ (Hrun' _ _ Hj)) as (bt & Hb & Hcl).
    destruct (same_but_keys_l _ _ _ _ HF Hb) as (bt' & Hb' & S).
    exists bt'. destruct S as (_ & _ & _ & _ & <-). auto.
  - intros j j' b Hj Hj'. eauto.
  - intros b Hb. destruct (Hc _ (Hcur' _ Hb)) as [(bt & Hbt & Hcl) Hno]. split.
    + destruct (same_but_keys_l _ _ _ _ HF Hbt) as (bt' & Hb' & S).
      exists bt'. destruct S as (_ & _ & _ & _ & <-). auto.
    + intros j Hj. apply (Hno j). apply Hrun'. exact Hj.
  - intros i b ks r Hi. destruct (Hcall' _ _ _ _ Hi) as [Hold|Hnew].
    + destruct (Hd _ _ _ _ Hold) as (bt & Hb & Hcl & Hres).
      destruct (same_but_keys_l _ _ _ _ HF Hb) as (bt' & Hb' & S).
      exists bt'. split; [exact Hb'|]. split.
      * destruct S as (_ & _ & _ & _ & <-). exact Hcl.
      * rewrite <- (same_but_keys_result _ _ _ S). exact Hres.
    + destruct Hnew as (bt & Hb & Hcl & Hres).
      destruct (same_but_keys_l _ _ _ _ HF Hb) as (bt' & Hb' & S).
      exists bt'. split; [exact Hb'|]. split.
      * destruct S as (_ & _ & _ & _ & <-). exact Hcl.
      * rewrite <- (same_but_keys_result _ _ _ S). exact Hres.
  - intros b c Hbc. rewrite Hfet' in Hbc.
    destruct (Hf _ _ Hbc) as (bt & Hb & Hcl & Herr & Hch).
    destruct (same_but_keys_l _ _ _ _ HF Hb) as (bt' & Hb' & S).
    destruct S as (Hsz & _ & _ & He' & Hcl').
    exists bt'. rewrite <- Hsz, <- He', <- Hcl'. auto.
  - intros b bt' e Hb' He'. destruct (same_but_keys_r _ _ _ _ HF Hb') as (bt & Hb & S).
    destruct S as (_ & _ & _ & Heq & _). rewrite Hfet'. eapply He; [exact Hb|congruence].
  - intros b bt' k Hb' Hk. destruct (same_but_keys_r _ _ _ _ HF Hb') as (bt & Hb & S).
    destruct S as (_ & _ & Heq & _ & _). rewrite Hfet'. eapply Hr; [exact Hb|congruence].
Qed.

Lemma outcome_of_failed (r : gmap K V * option E) e :
  outcome_of r = Failed e -> r.2 = Some e.
Proof. unfold outcome_of. destruct r.2; congruence. Qed.

Lemma outcome_of_ok (r : gmap K V * option E) m :
  outcome_of r = Ok m -> r.2 = None /\ r.1 = m.
Proof. unfold outcome_of. destruct r.2; intros [=]; auto. Qed.

Lemma wf_create w i ks :
  wf zero f w -> callers w !! i = Some (CStart ks) -> currentBatch (loader w) = None ->
  wf zero f (mkWorld (set_current (loader w) (Some (length (batches w))))
        (batches w ++ [new_batch (loader w)]) (runs w ++ [RStart])
        (<[i := CGot (length (batches w)) ks]> (callers w)) (fetched w)).
Proof.
  intros [Hfn Hbf Ht Hu Hc Hd Hf He Hr] Hi Hcur. constructor; simpl.
  - exact Hfn.
  - intros b bt Hb. apply lookup_snoc_cases in Hb as [Hb|[_ <-]]; [eauto|exact Hfn].
  - intros j b Hj. apply lookup_snoc_cases in Hj as [Hj|[_ Hj]]; [|discriminate].
    destruct (Ht _ _ Hj) as (bt & Hb & Hcl).
    exists bt. split; [apply lookup_app_l_Some; exact Hb|exact Hcl].
  - intros j j' b Hj Hj'.
    apply lookup_snoc_cases in Hj as [Hj|[_ Hj]]; [|discriminate].
    apply lookup_snoc_cases in Hj' as [Hj'|[_ Hj']]; [|discriminate]. eauto.
  - intros b Hb. injection Hb as <-. split.
    + exists (new_batch (loader w)). split; [|reflexivity].
      apply lookup_snoc_Some. right. auto.
    + intros j Hj. apply lookup_snoc_cases in Hj as [Hj|[_ Hj]]; [|discriminate].
      destruct (Ht _ _ Hj) as (bt & Hb & _). apply lookup_lt_Some in Hb. lia.
  - intros i' b ks' r Hi'.
    apply lookup_insert_cases in Hi' as [[_ Heq]|[_ Hi']]; [discriminate|].
    destruct (Hd _ _ _ _ Hi') as (bt & Hb & Hrest).
    exists bt. split; [apply lookup_app_l_Some; exact Hb|exact Hrest].
  - intros b c Hbc. destruct (Hf _ _ Hbc) as (bt & Hb & Hrest).
    exists bt. split; [apply lookup_app_l_Some; exact Hb|exact Hrest].
  - intros b bt e Hb He'.
    apply lookup_snoc_cases in Hb as [Hb|[_ <-]]; [eauto|discriminate].
  - intros b bt k Hb Hk.
    apply lookup_snoc_cases in Hb as [Hb|[_ <-]]; [eauto|].
    simpl in Hk. rewrite lookup_empty in Hk. destruct Hk; discriminate.
Qed.

Lemma wf_take w j d b :
  wf zero f w -> runs w !! j = Some (RSleep d) -> currentBatch (loader w) = Some b ->
  wf zero f (mkWorld (set_current (loader w) None) (batches w)
        (<[j := RTaken b]> (runs w)) (callers w) (fetched w)).
Proof.
  intros [Hfn Hbf Ht Hu Hc Hd Hf He Hr] Hj Hcur.
  destruct (Hc _ Hcur) as [Hbt Hno]. constructor; simpl; auto.
  - intros j' b' Hj'. apply lookup_insert_cases in Hj' as [[_ Heq]|[_ Hj']].
    + injection Heq as <-. exact Hbt.
    + eauto.
  - intros j1 j2 b' H1 H2.
    apply lookup_insert_cases in H1 as [[<- Heq1]|[Hne1 H1]];
    apply lookup_insert_cases in H2 as [[<- Heq2]|[Hne2 H2]]; auto.
    + injection Heq1 as <-. exfalso. exact (Hno _ H2).
    + injection Heq2 as <-. exfalso. exact (Hno _ H1).
    + eauto.
  - discriminate.
Qed.

Lemma wf_resolve w j b bt ks cs s :
  wf zero f w ->
  runs w !! j = Some (RTaken b) ->
  batches w !! b = Some bt ->
  chunk ks (batchSize bt) = Some (Ret cs) ->
  rtc loop_step
    (loop_init (map (fun c => outcome_of (bat_fn bt c)) cs) (results bt)) s ->
  exited s = true ->
  wf zero f (mkWorld (loader w) (<[b := resolved bt s]> (batches w))
        (<[j := RDone]> (runs w)) (callers w)
        (fetched w ++ map (fun c => (b, c)) cs)).
Proof.
  intros [Hfn Hbf Ht Hu Hc Hd Hf He Hr] Hj Hbt Hch Hloop Hx.
  assert (Hopen : ch_closed bt = false).
  { destruct (Ht _ _ Hj) as (bt' & Hb' & Hcl). congruence. }
  assert (Hfb : bat_fn bt = f) by eauto.
  rewrite Hfb in Hloop.
  (* a closed batch of [w] is not [b] *)
  assert (Hother : forall b0 bt0, batches w !! b0 = Some bt0 ->
            ch_closed bt0 = true -> b <> b0).
  { intros b0 bt0 Hb0 Hcl ->. congruence. }
  constructor; simpl.
  - exact Hfn.
  - intros b0 bt0 Hb0. apply lookup_insert_cases in Hb0 as [[_ <-]|[_ Hb0]];
      [exact Hfb|eauto].
  - intros j' b' Hj'. apply lookup_insert_cases in Hj' as [[_ Heq]|[Hne Hj']];
      [discriminate|].
    destruct (Ht _ _ Hj') as (bt0 & Hb0 & Hcl).
    assert (b <> b') by (intros <-; apply Hne; eapply Hu; eauto).
    exists bt0. split; [apply lookup_insert_keep; auto|exact Hcl].
  - intros j1 j2 b' H1 H2.
    apply lookup_insert_cases in H1 as [[_ Heq]|[_ H1]]; [discriminate|].
    apply lookup_insert_cases in H2 as [[_ Heq]|[_ H2]]; [discriminate|]. eauto.
  - intros b' Hb'. destruct (Hc _ Hb') as [(bt0 & Hb0 & Hcl) Hno].
    assert (b <> b') by (intros <-; exact (Hno _ Hj)). split.
    + exists bt0. split; [apply lookup_insert_keep; auto|exact Hcl].
    + intros j' Hj'. apply lookup_insert_cases in Hj' as [[_ Heq]|[_ Hj']];
        [discriminate|exact (Hno _ Hj')].
  - intros i b' ks' r Hi. destruct (Hd _ _ _ _ Hi) as (bt0 & Hb0 & Hcl & Hres).
    exists bt0. split; [apply lookup_insert_keep; eauto|auto].
  - intros b' c Hbc. apply elem_of_app in Hbc as [Hbc|Hbc].
    + destruct (Hf _ _ Hbc) as (bt0 & Hb0 & Hcl & Hrest).
      exists bt0. split; [apply lookup_insert_keep; eauto|auto].
    + apply elem_of_pair_map in Hbc as [-> Hc'].
      exists (resolved bt s). split; [eapply lookup_insert_here; eauto|].
      split; [reflexivity|]. split.
      * intros Hfail. destruct ((f c).2) as [e0|] eqn:He0; [|congruence].
        destruct (loop_exit_failed _ _ _ e0 Hloop Hx) as (e & Hle & _).
        -- apply list_elem_of_In, in_map_iff. exists c.
           split; [unfold outcome_of; rewrite He0; reflexivity|].
           apply list_elem_of_In. exact Hc'.
        -- exists e. exact Hle.
      * exists ks, cs. auto.
  - intros b' bt' e Hb' He'.
    apply lookup_insert_cases in Hb' as [[<- <-]|[_ Hb']].
    + destruct (loop_inv_rtc _ _ _ Hloop) as (_ & _ & _ & _ & _ & Hin & _).
      apply Hin in He'. apply list_elem_of_In, in_map_iff in He' as (c & Hoc & Hc').
      exists c. split.
      * apply elem_of_app. right. apply list_elem_of_In, in_map_iff. eauto.
      * apply outcome_of_failed. exact Hoc.
    + destruct (He _ _ _ Hb' He') as (c & Hc' & Hfc).
      exists c. split; [apply elem_of_app; left; exact Hc'|exact Hfc].
  - intros b' bt' k Hb' Hk.
    apply lookup_insert_cases in Hb' as [[<- <-]|[_ Hb']].
    + destruct (loop_acc_from _ _ _ k Hloop Hk) as [Hold|(i & m & Hi & Hm)].
      * destruct (Hr _ _ _ Hbt Hold) as (c & Hc' & Hrest).
        exists c. split; [apply elem_of_app; left; exact Hc'|exact Hrest].
      * apply list_lookup_fmap_Some in Hi as (c & Hoc & Hci).
        symmetry in Hoc. apply outcome_of_ok in Hoc as [Hn Hm1].
        exists c. split; [|split; [exact Hn|rewrite Hm1; exact Hm]].
        apply elem_of_app. right. apply list_elem_of_In, in_map_iff.
        exists c. split; [reflexivity|]. apply list_elem_of_In.
        eapply list_elem_of_lookup_2. exact Hci.
    + destruct (Hr _ _ _ Hb' Hk) as (c & Hc' & Hrest).
      exists c. split; [apply elem_of_app; left; exact Hc'|exact Hrest].
Qed.

Lemma wf_step w w' : wf zero f w -> step zero w w' -> wf zero f w'.
Proof.
  intros Hwf Hstep.
  destruct Hstep as [w i ks Hi Hcur|w i ks b Hi Hcur|w i b ks bt Hi Hb
                    |w i b ks bt Hi Hb Hcl|w n|w d|w j Hj|w j d b Hj Hcur
                    |w j b bt ks cs s Hj Hb Hperm Hch Hloop Hx].
  - apply wf_create; auto.
  - apply (wf_frame w); simpl; auto.
    + intros i' b' ks' r Hi'. left.
      apply lookup_insert_cases in Hi' as [[_ Heq]|[_ Hi']]; [discriminate|exact Hi'].
    + apply same_but_keys_diag.
  - apply (wf_frame w); simpl; auto.
    + intros i' b' ks' r Hi'. left.
      apply lookup_insert_cases in Hi' as [[_ Heq]|[_ Hi']]; [discriminate|exact Hi'].
    + apply same_but_keys_add. exact Hb.
  - apply (wf_frame w); simpl; auto.
    + intros i' b' ks' r Hi'.
      apply lookup_insert_cases in Hi' as [[_ Heq]|[_ Hi']]; [|left; exact Hi'].
      injection Heq as <- <- <-. right. eauto.
    + apply same_but_keys_diag.
  - apply (wf_frame w); simpl; auto. apply same_but_keys_diag.
  - apply (wf_frame w); simpl; auto. apply same_but_keys_diag.
  - apply (wf_frame w); simpl; auto.
    + intros j' b Hj'.
      apply lookup_insert_cases in Hj' as [[_ Heq]|[_ Hj']]; [discriminate|exact Hj'].
    + apply same_but_keys_diag.
  - eapply wf_take; eauto.
  - eapply wf_resolve; eauto.
Qed.

Lemma wf_reach reqs w : rtc (step zero) (init_world f reqs) w -> wf zero f w.
Proof.
  intros Hr. remember (init_world f reqs) as w0 eqn:Hw0.
  assert (Hinit : wf zero f w0) by (subst; apply wf_init).
  clear Hw0. induction Hr as [x|x y z Hxy Hyz IH]; auto.
  apply IH. eapply wf_step; eauto.
Qed.

End WorldProofs.

(** ** Inversion lemmas on single steps *)
Section StepFacts.
Context `{Countable K} {V E : Type}.
Variable zero : V.
Implicit Types (w : @world K _ _ V E) (bt : @batch K _ _ V E).

Ltac ins_cases H :=
  first [ apply lookup_insert_cases in H as [[? ?]|[? H]]
        | apply lookup_snoc_cases in H as [H|[? ?]] ].

(** A caller that leaves [CStart] while no batch is current allocates one. *)
Lemma lock_creates w w' i ks b ks' :
  step zero w w' ->
  callers w !! i = Some (CStart ks) ->
  currentBatch (loader w) = None ->
  callers w' !! i = Some (CGot b ks') ->
  b = length (batches w) /\
  batches w' = batches w ++ [new_batch (loader w)] /\
  runs w' = runs w ++ [RStart] /\
  currentBatch (loader w') = Some (length (batches w)).
Proof.
  intros Hs Hi Hcur Hi'.
  destruct Hs as [w i0 ks0 Hi0 Hc0|w i0 ks0 b0 Hi0 Hc0|w i0 b0 ks0 bt0 Hi0 Hb0
                 |w i0 b0 ks0 bt0 Hi0 Hb0 Hcl0|w n|w d|w j Hj|w j d b0 Hj Hc0
                 |w j b0 bt0 ks0 cs s Hj Hb0 Hperm Hch Hloop Hx];
    simpl in *; try congruence.
  - ins_cases Hi'.
    + subst i0. injection H1 as <- <-. auto.
    + congruence.
  - ins_cases Hi'; [subst i0; congruence|congruence].
  - ins_cases Hi'; [subst i0; congruence|congruence].
Qed.

(** The run goroutine that finishes a batch without keys calls the fetch
    function exactly once, on the empty chunk. *)
Lemma resolve_empty_window w w' j b bt :
  step zero w w' ->
  runs w !! j = Some (RTaken b) ->
  runs w' !! j = Some RDone ->
  batches w !! b = Some bt ->
  keys bt = ∅ ->
  0 < batchSize bt ->
  fetched w' = fetched w ++ [(b, [])].
Proof.
  intros Hs Hj Hj' Hb Hk Hpos.
  destruct Hs as [w i0 ks0 Hi0 Hc0|w i0 ks0 b0 Hi0 Hc0|w i0 b0 ks0 bt0 Hi0 Hb0
                 |w i0 b0 ks0 bt0 Hi0 Hb0 Hcl0|w n|w d|w j0 Hj0|w j0 d b0 Hj0 Hc0
                 |w j0 b0 bt0 ks0 cs s Hj0 Hb0 Hperm Hch Hloop Hx];
    simpl in *; try congruence.
  - ins_cases Hj'; congruence.
  - ins_cases Hj'; [congruence|congruence].
  - ins_cases Hj'; [congruence|congruence].
  - ins_cases Hj'; [|congruence]. subst j0.
    rewrite Hj in Hj0. injection Hj0 as <-. rewrite Hb in Hb0. injection Hb0 as <-.
    rewrite Hk, elements_empty in Hperm. symmetry in Hperm.
    apply Permutation_nil in Hperm. subst ks0.
    unfold chunk, chunk_fuel in Hch. simpl in Hch.
    destruct (batchSize bt =? 0) eqn:E0; [apply Z.eqb_eq in E0; lia|].
    change (Z.of_nat 0) with 0 in Hch.
    destruct (batchSize bt <? 0) eqn:En; [apply Z.ltb_lt in En; lia|].
    injection Hch as <-. reflexivity.
Qed.

(** [batchSize] of a batch never changes once the batch exists. *)
Lemma batchSize_step w w' b bt :
  step zero w w' -> batches w !! b = Some bt ->
  exists bt', batches w' !! b = Some bt' /\ batchSize bt' = batchSize bt.
Proof.
  intros Hs Hb.
  destruct Hs as [w i0 ks0 Hi0 Hc0|w i0 ks0 b0 Hi0 Hc0|w i0 b0 ks0 bt0 Hi0 Hb0
                 |w i0 b0 ks0 bt0 Hi0 Hb0 Hcl0|w n|w d|w j0 Hj0|w j0 d b0 Hj0 Hc0
                 |w j0 b0 bt0 ks0 cs s Hj0 Hb0 Hperm Hch Hloop Hx];
    simpl in *; eauto.
  - exists bt. split; [apply lookup_app_l_Some; exact Hb|reflexivity].
  - destruct (decide (b0 = b)) as [<-|Hne].
    + rewrite Hb in Hb0. injection Hb0 as <-.
      exists (add_keys bt ks0). split; [eapply lookup_insert_here; eauto|reflexivity].
    + exists bt. split; [apply lookup_insert_keep; auto|reflexivity].
  - destruct (decide (b0 = b)) as [<-|Hne].
    + rewrite Hb in Hb0. injection Hb0 as <-.
      exists (resolved bt s). split; [eapply lookup_insert_here; eauto|reflexivity].
    + exists bt. split; [apply lookup_insert_keep; auto|reflexivity].
Qed.

Lemma batchSize_rtc w w' b bt :
  rtc (step zero) w w' -> batches w !! b = Some bt ->
  exists bt', batches w' !! b = Some bt' /\ batchSize bt' = batchSize bt.
Proof.
  intros Hr. revert bt. induction Hr as [x|x y z Hxy Hyz IH]; intros bt Hb; eauto.
  destruct (batchSize_step _ _ _ _ Hxy Hb) as (bt1 & Hb1 & Hsz1).
  destruct (IH _ Hb1) as (bt2 & Hb2 & Hsz2). exists bt2. split; [exact Hb2|congruence].
Qed.

(** A batch that appears in a step was allocated by it, from [BatchSize]. *)
Lemma batch_created w w' b bt :
  step zero w w' -> batches w !! b = None -> batches w' !! b = Some bt ->
  batchSize bt = BatchSize (loader w).
Proof.
  intros Hs Hb Hb'.
  destruct Hs as [w i0 ks0 Hi0 Hc0|w i0 ks0 b0 Hi0 Hc0|w i0 b0 ks0 bt0 Hi0 Hb0
                 |w i0 b0 ks0 bt0 Hi0 Hb0 Hcl0|w n|w d|w j0 Hj0|w j0 d b0 Hj0 Hc0
                 |w j0 b0 bt0 ks0 cs s Hj0 Hb0 Hperm Hch Hloop Hx];
    simpl in *; try congruence.
  - apply lookup_snoc_cases in Hb' as [Hb'|[_ <-]]; [congruence|reflexivity].
  - enough (<[b0 := add_keys bt0 ks0]> (batches w) !! b = None) by congruence.
    apply list_lookup_insert_None. exact Hb.
  - enough (<[b0 := resolved bt0 s]> (batches w) !! b = None) by congruence.
    apply list_lookup_insert_None. exact Hb.
Qed.

(** The run goroutine reads [loader.Delay] when it starts to sleep. *)
Lemma sleep_reads_delay w w' j d :
  step zero w w' -> runs w !! j = Some RStart -> runs w' !! j = Some (RSleep d) ->
  d = Delay (loader w).
Proof.
  intros Hs Hj Hj'.
  destruct Hs as [w i0 ks0 Hi0 Hc0|w i0 ks0 b0 Hi0 Hc0|w i0 b0 ks0 bt0 Hi0 Hb0
                 |w i0 b0 ks0 bt0 Hi0 Hb0 Hcl0|w n|w d0|w j0 Hj0|w j0 d0 b0 Hj0 Hc0
                 |w j0 b0 bt0 ks0 cs s Hj0 Hb0 Hperm Hch Hloop Hx];
    simpl in *; try congruence.
  - ins_cases Hj'; congruence.
  - ins_cases Hj'; [subst j0; congruence|congruence].
  - ins_cases Hj'; [congruence|congruence].
  - ins_cases Hj'; [congruence|congruence].
Qed.

(** A caller that has returned stays returned. *)
Lemma callers_done_step w w' j b ks r :
  step zero w w' -> callers w !! j = Some (CDone b ks r) ->
  callers w' !! j = Some (CDone b ks r).
Proof.
  intros Hs Hj.
  destruct Hs as [w i0 ks0 Hi0 Hc0|w i0 ks0 b0 Hi0 Hc0|w i0 b0 ks0 bt0 Hi0 Hb0 Hrl
                 |w i0 b0 ks0 bt0 Hi0 Hb0 Hcl0|w n|w d|w j0 Hj0|w j0 d b0 Hj0 Hc0
                 |w j0 b0 bt0 ks0 cs s Hj0 Hb0 Hperm Hch Hloop Hx];
    simpl in *; try exact Hj;
    (rewrite list_lookup_insert_ne; [exact Hj|]; intros ->; congruence).
Qed.

Lemma read_locked_lookup (cl : list (@caller K _ _ V E)) j b ks r e :
  cl !! j = Some (CDone b ks (r, Some e)) -> existsb (read_locked b) cl = true.
Proof.
  intros Hj. apply existsb_exists. exists (CDone b ks (r, Some e)). split.
  - apply list_elem_of_In. eapply list_elem_of_lookup_2. exact Hj.
  - simpl. apply Nat.eqb_refl.
Qed.

(** A caller about to take [bat.mut.Lock()] on a batch whose read lock is
    held by a caller that returned with an error never moves. *)
Lemma got_blocked_step w w' i b ks j ks' r e :
  step zero w w' ->
  callers w !! i = Some (CGot b ks) ->
  callers w !! j = Some (CDone b ks' (r, Some e)) ->
  callers w' !! i = Some (CGot b ks).
Proof.
  intros Hs Hi Hj.
  destruct Hs as [w i0 ks0 Hi0 Hc0|w i0 ks0 b0 Hi0 Hc0|w i0 b0 ks0 bt0 Hi0 Hb0 Hrl
                 |w i0 b0 ks0 bt0 Hi0 Hb0 Hcl0|w n|w d|w j0 Hj0|w j0 d b0 Hj0 Hc0
                 |w j0 b0 bt0 ks0 cs s Hj0 Hb0 Hperm Hch Hloop Hx];
    simpl in *; try exact Hi.
  - rewrite list_lookup_insert_ne; [exact Hi|]. intros ->. congruence.
  - rewrite list_lookup_insert_ne; [exact Hi|]. intros ->. congruence.
  - destruct (decide (i0 = i)) as [->|Hne].
    + rewrite Hi in Hi0. injection Hi0 as <- <-.
      rewrite (read_locked_lookup _ _ _ _ _ _ Hj) in Hrl. discriminate.
    + rewrite list_lookup_insert_ne by congruence. exact Hi.
  - rewrite list_lookup_insert_ne; [exact Hi|]. intros ->. congruence.
Qed.

Lemma got_blocked_rtc w w' i b ks j ks' r e :
  rtc (step zero) w w' ->
  callers w !! i = Some (CGot b ks) ->
  callers w !! j = Some (CDone b ks' (r, Some e)) ->
  callers w' !! i = Some (CGot b ks).
Proof.
  intros Hr. induction Hr as [x|x y z Hxy Hyz IH]; intros Hi Hj; [exact Hi|].
  apply IH.
  - eapply got_blocked_step; eauto.
  - eapply callers_done_step; eauto.
Qed.

End StepFacts.

(** ** Results of [LoadMany] *)
Section ResultFacts.
Context `{Countable K} {V : Type}.

Lemma foldl_fill_notin (g : K -> V) (m : gmap K V) (ks : list K) k :
  k ∉ ks -> foldl (fun r k => <[k := g k]> r) m ks !! k = m !! k.
Proof.
  revert m. induction ks as [|x ks IH]; intros m Hk; simpl; [reflexivity|].
  rewrite IH by (intros Hin; apply Hk; right; exact Hin).
  rewrite lookup_insert_ne; [reflexivity|]. intros ->. apply Hk. left.
Qed.

Lemma foldl_fill_in (g : K -> V) (m : gmap K V) (ks : list K) k :
  k ∈ ks -> foldl (fun r k => <[k := g k]> r) m ks !! k = Some (g k).
Proof.
  revert m. induction ks as [|x ks IH]; intros m Hk; simpl.
  - apply elem_of_nil in Hk. contradiction.
  - destruct (decide (k ∈ ks)) as [Hin|Hnin]; [apply IH; exact Hin|].
    rewrite foldl_fill_notin by exact Hnin.
    apply elem_of_cons in Hk as [->|Hin]; [apply lookup_insert_eq|contradiction].
Qed.

End ResultFacts.

(** ** Further properties of the [select] loop of [run] *)
Section LoopExtras.
Context `{Countable K} {V E : Type}.
Implicit Types (os : list (@outcome K _ _ V E)) (s : @loop_state K _ _ V E).

Lemma omap_insert_None {A} (l : list (option A)) i a :
  l !! i = Some (Some a) ->
  S (length (omap id (<[i := None]> l))) = length (omap id l).
Proof.
  revert i. induction l as [|x l IH]; intros i Hi; [discriminate|].
  destruct i as [|i]; simpl in *.
  - injection Hi as ->. reflexivity.
  - destruct x; simpl; [f_equal|]; apply IH; exact Hi.
Qed.

Lemma loop_step_measure s s' : loop_step s s' -> (loop_measure s' < loop_measure s)%nat.
Proof.
  intros Hs. destruct Hs as [s i m Hx Hi|s i e Hx Hi|s Hw Hall|s Hx Hw];
    unfold loop_measure, pending_count; simpl.
  - pose proof (omap_insert_None _ _ _ Hi). rewrite Hx. destruct (wg_closed s); lia.
  - pose proof (omap_insert_None _ _ _ Hi). rewrite Hx. destruct (wg_closed s); lia.
  - rewrite Hw. destruct (exited s); lia.
  - rewrite Hx, Hw. lia.
Qed.

(** The [select] loop never runs forever: every sequence of its steps
    (receives from [resultChan] and [errChan], the close of [wgChan] and
    the receive from it) is finite. *)
Theorem loop_terminates s : Acc (fun s1 s0 => loop_step s0 s1) s.
Proof.
  assert (Hn : forall n s, (loop_measure s < n)%nat ->
            Acc (fun s1 s0 => loop_step s0 s1) s).
  { induction n as [|n IH]; intros s0 Hs; [lia|].
    constructor. intros s1 Hs1. apply IH.
    pose proof (loop_step_measure _ _ Hs1). lia. }
  apply (Hn (S (loop_measure s))). lia.
Qed.

Lemma pending_cases (l : list (option (@outcome K _ _ V E))) :
  Forall (fun p => p = None) l \/ exists i o, l !! i = Some (Some o).
Proof.
  induction l as [|[o|] l IH]; [left; constructor| |].
  - right. exists 0%nat, o. reflexivity.
  - destruct IH as [HF|(i & o & Hi)].
    + left. constructor; auto.
    + right. exists (S i), o. exact Hi.
Qed.

(** The [select] loop never blocks before [break loop]: while it runs,
    some chunk goroutine's send can be received, or the WaitGroup goroutine
    can close [wgChan], or the loop can receive from the closed [wgChan]. *)
Theorem loop_progress s : exited s = false -> exists s', loop_step s s'.
Proof.
  intros Hx. destruct (pending_cases (pending s)) as [HF|(i & o & Hi)].
  - destruct (wg_closed s) eqn:Hw.
    + eexists. apply LRecvWg; assumption.
    + eexists. apply LCloseWg; assumption.
  - destruct o as [m|e]; eexists; [eapply LRecvResult|eapply LRecvErr]; eauto.
Qed.

Lemma loop_merged_step os r0 s s' :
  loop_inv os r0 s -> loop_merged os r0 s -> loop_step s s' -> loop_merged os r0 s'.
Proof.
  intros (Hlen & Hpend & _) (Hrecv & Hfrom) Hs.
  destruct Hs as [s i m Hx Hi|s i e Hx Hi|s Hw Hall|s Hx Hw];
    unfold loop_merged; simpl.
  - split.
    + intros j m' k Hj Hpj Hk. rewrite lookup_union_is_Some.
      destruct (decide (i = j)) as [<-|Hne].
      * left. apply Hpend in Hi. rewrite Hi in Hj. injection Hj as <-. exact Hk.
      * right. rewrite list_lookup_insert_ne in Hpj by exact Hne. eauto.
    + intros k v Hk. apply lookup_union_Some_raw in Hk as [Hm|[_ Ha]].
      * right. exists i, m. split; [apply Hpend; exact Hi|exact Hm].
      * eauto.
  - split; [|exact Hfrom].
    intros j m' k Hj Hpj Hk. destruct (decide (i = j)) as [<-|Hne].
    + apply Hpend in Hi. congruence.
    + rewrite list_lookup_insert_ne in Hpj by exact Hne. eauto.
  - exact (conj Hrecv Hfrom).
  - exact (conj Hrecv Hfrom).
Qed.

Lemma loop_merged_rtc os r0 s :
  rtc loop_step (loop_init os r0) s -> loop_merged os r0 s.
Proof.
  intros Hr. remember (loop_init os r0) as s0 eqn:Hs0.
  assert (Hinit : loop_inv os r0 s0 /\ loop_merged os r0 s0).
  { subst. split; [apply loop_inv_init|]. split.
    - intros i m k _ Hp. simpl in Hp. rewrite list_lookup_fmap in Hp.
      destruct (os !! i); discriminate.
    - intros k v Hk. left. exact Hk. }
  clear Hs0. induction Hr as [x|x y z Hxy Hyz IH]; [apply Hinit|].
  apply IH. destruct Hinit as [Hi Hm].
  split; [eapply loop_inv_step; eauto|eapply loop_merged_step; eauto].
Qed.

(** When no chunk fails, the loop leaves with a nil error only after
    receiving every chunk's result ([wgChan] closed), every key of every
    chunk's map is in [bat.results], and every value there was already
    there or comes from some chunk's map. *)
Theorem loop_all_ok os r0 s :
  rtc loop_step (loop_init os r0) s -> exited s = true ->
  (forall e, Failed e ∉ os) ->
  lerr s = None /\ Forall (fun p => p = None) (pending s) /\
  (forall i m k, os !! i = Some (Ok m) -> is_Some (m !! k) -> is_Some (acc s !! k)) /\
  (forall k v, acc s !! k = Some v ->
     r0 !! k = Some v \/ exists i m, os !! i = Some (Ok m) /\ m !! k = Some v).
Proof.
  intros Hr Hx Hnf.
  destruct (loop_inv_rtc _ _ _ Hr) as (Hlen & _ & _ & Hwg & Hex & Hin & _).
  destruct (loop_merged_rtc _ _ _ Hr) as [Hrecv Hfrom].
  assert (Hl : lerr s = None).
  { destruct (lerr s) as [e|] eqn:He; [|reflexivity].
    exfalso. exact (Hnf e (Hin e eq_refl)). }
  pose proof (Hwg (Hex Hx Hl)) as Hall.
  split; [exact Hl|]. split; [exact Hall|]. split; [|exact Hfrom].
  intros i m k Hi Hk. apply (Hrecv i m k Hi); [|exact Hk].
  assert (Hlt : (i < length (pending s))%nat)
    by (rewrite Hlen; eapply lookup_lt_Some; eauto).
  apply lookup_lt_is_Some_2 in Hlt as [p Hp].
  rewrite Forall_lookup in Hall. pose proof (Hall _ _ Hp) as ->. exact Hp.
Qed.

(** When the loop has left, [bat.err] is nil exactly when no chunk failed,
    and a recorded error is the error of some chunk. *)
Theorem loop_error_iff os r0 s :
  rtc loop_step (loop_init os r0) s -> exited s = true ->
  (lerr s = None <-> forall e, Failed e ∉ os) /\
  (forall e, lerr s = Some e -> Failed e ∈ os).
Proof.
  intros Hr Hx. destruct (loop_inv_rtc _ _ _ Hr) as (_ & _ & _ & _ & _ & Hin & _).
  split; [|exact Hin]. split.
  - intros Hl e He.
    destruct (loop_exit_failed _ _ _ e Hr Hx He) as (e' & He' & _). congruence.
  - intros Hnf. destruct (lerr s) as [e|] eqn:Hl; [|reflexivity].
    exfalso. exact (Hnf e (Hin e eq_refl)).
Qed.

End LoopExtras.

(** ** Further invariants of the loader world *)
Section WorldExtras.
Context `{Countable K} {V E : Type}.
Variable zero : V.
Variable f : @FetchFunc K _ _ V E.
Implicit Types (w : @world K _ _ V E) (bt : @batch K _ _ V E).

Lemma fetched_of_app b (l1 l2 : list (nat * list K)) :
  fetched_of b (l1 ++ l2) = fetched_of b l1 ++ fetched_of b l2.
Proof. unfold fetched_of. rewrite filter_app, map_app. reflexivity. Qed.

Lemma fetched_of_same b (cs : list (list K)) :
  fetched_of b (map (fun c => (b, c)) cs) = cs.
Proof.
  unfold fetched_of. induction cs as [|c cs IH]; [reflexivity|].
  rewrite map_cons, filter_cons_True by reflexivity. simpl. f_equal. exact IH.
Qed.

Lemma fetched_of_other b b' (cs : list (list K)) :
  b <> b' -> fetched_of b' (map (fun c => (b, c)) cs) = [].
Proof.
  intros Hne. unfold fetched_of. induction cs as [|c cs IH]; [reflexivity|].
  rewrite map_cons, filter_cons_False by (simpl; congruence). exact IH.
Qed.

Lemma fetched_of_none b (l : list (nat * list K)) :
  (forall c, (b, c) ∉ l) -> fetched_of b l = [].
Proof.
  unfold fetched_of. induction l as [|[b0 c0] l IH]; intros Hn; [reflexivity|].
  destruct (decide (b0 = b)) as [->|Hne].
  - exfalso. apply (Hn c0). left.
  - rewrite filter_cons_False by (simpl; congruence).
    apply IH. intros c Hc. apply (Hn c). right. exact Hc.
Qed.

Lemma joined_insert_ne (cl : list (@caller K _ _ V E)) i i' c b ks :
  joined cl i' b ks -> i <> i' -> joined (<[i := c]> cl) i' b ks.
Proof.
  intros [Hj|[r Hj]] Hne; [left|right; exists r];
    rewrite list_lookup_insert_ne by exact Hne; exact Hj.
Qed.

Lemma joined_insert_from (cl : list (@caller K _ _ V E)) i i' c x b ks :
  cl !! i = Some x ->
  (forall b0 ks0, x <> CWait b0 ks0) -> (forall b0 ks0 r0, x <> CDone b0 ks0 r0) ->
  joined cl i' b ks -> joined (<[i := c]> cl) i' b ks.
Proof.
  intros Hi Hw Hd Hj. apply joined_insert_ne; [exact Hj|]. intros <-.
  destruct Hj as [Hj|[r Hj]]; rewrite Hi in Hj; injection Hj as ->;
    [exact (Hw _ _ eq_refl)|exact (Hd _ _ _ eq_refl)].
Qed.

Lemma dispatch_init reqs : dispatch_inv f (init_world f reqs).
Proof.
  unfold dispatch_inv; simpl. repeat split.
  all: intros * Hb; rewrite lookup_nil in Hb; discriminate.
Qed.

Lemma dispatch_step w w' :
  wf zero f w -> dispatch_inv f w -> step zero w w' -> dispatch_inv f w'.
Proof.
  intros Hwf (HK & HD & HR & HM) Hstep.
  destruct Hstep as [w i ks Hi Hcur|w i ks b Hi Hcur|w i b ks bt Hi Hb
                    |w i b ks bt Hi Hb Hcl|w n|w d|w j Hj|w j d b Hj Hcur
                    |w j b bt ks cs s Hj Hb Hperm Hch Hloop Hx];
    unfold dispatch_inv; simpl.
  - (* SLockCreate *)
    assert (Hnf : forall c, (length (batches w), c) ∉ fetched w).
    { intros c Hc. destruct (wf_fetched _ _ _ Hwf _ _ Hc) as (bt & Hb & _).
      apply lookup_lt_Some in Hb. lia. }
    split; [|split; [|split]].
    + intros b bt k Hb Hk. apply lookup_snoc_cases in Hb as [Hb|[_ <-]].
      * destruct (HK _ _ _ Hb Hk) as (i' & ks' & Hj & Hk').
        exists i', ks'. split; [|exact Hk'].
        eapply joined_insert_from; [exact Hi|intros; discriminate|intros; discriminate|exact Hj].
      * simpl in Hk. apply elem_of_empty in Hk. contradiction.
    + intros b bt Hb. apply lookup_snoc_cases in Hb as [Hb|[-> <-]]; [eauto|].
      left. apply fetched_of_none. exact Hnf.
    + intros b bt k v Hb Hk. apply lookup_snoc_cases in Hb as [Hb|[_ <-]]; [eauto|].
      simpl in Hk. rewrite lookup_empty in Hk. discriminate.
    + intros b bt c k Hb He Hc. apply lookup_snoc_cases in Hb as [Hb|[-> <-]]; [eauto|].
      exfalso. exact (Hnf c Hc).
  - (* SLockJoin *)
    split; [|split; [|split]]; try assumption.
    intros b0 bt k Hb0 Hk. destruct (HK _ _ _ Hb0 Hk) as (i' & ks' & Hj & Hk').
    exists i', ks'. split; [|exact Hk'].
    eapply joined_insert_from; [exact Hi|intros; discriminate|intros; discriminate|exact Hj].
  - (* SInsert *)
    split; [|split; [|split]].
    + intros b0 bt0 k Hb0 Hk.
      assert (Hold : forall b1 bt1, batches w !! b1 = Some bt1 -> k ∈ keys bt1 ->
                exists i' ks', joined (<[i := CWait b ks]> (callers w)) i' b1 ks' /\ k ∈ ks').
      { intros b1 bt1 Hb1 Hk1. destruct (HK _ _ _ Hb1 Hk1) as (i' & ks' & Hj & Hk').
        exists i', ks'. split; [|exact Hk'].
        eapply joined_insert_from; [exact Hi|intros; discriminate|intros; discriminate|exact Hj]. }
      apply lookup_insert_cases in Hb0 as [[<- <-]|[Hne Hb0]]; [|eauto].
      simpl in Hk. apply elem_of_union in Hk as [Hk|Hk]; [eauto|].
      exists i, ks. split; [left; eapply lookup_insert_here; exact Hi|].
      apply elem_of_list_to_set in Hk. exact Hk.
    + intros b0 bt0 Hb0. apply lookup_insert_cases in Hb0 as [[<- <-]|[_ Hb0]]; [|eauto].
      destruct (HD _ _ Hb) as [Hn|(ks0 & Hnd & Hsub & Hch)]; [left; exact Hn|right].
      exists ks0. split; [exact Hnd|]. split; [|exact Hch].
      intros k Hk. simpl. apply elem_of_union_l. eauto.
    + intros b0 bt0 k v Hb0 Hk.
      apply lookup_insert_cases in Hb0 as [[<- <-]|[_ Hb0]]; simpl in *; eauto.
    + intros b0 bt0 c k Hb0 He Hc.
      apply lookup_insert_cases in Hb0 as [[<- <-]|[_ Hb0]]; simpl in *; eauto.
  - (* SReturn *)
    split; [|split; [|split]]; try assumption.
    intros b0 bt0 k Hb0 Hk. destruct (HK _ _ _ Hb0 Hk) as (i' & ks' & Hj & Hk').
    exists i', ks'. split; [|exact Hk'].
    destruct (decide (i = i')) as [<-|Hne]; [|apply joined_insert_ne; auto].
    right. destruct Hj as [Hj|[r Hj]]; rewrite Hi in Hj; [|discriminate].
    injection Hj as -> ->. eexists. eapply lookup_insert_here. exact Hi.
  - exact (conj HK (conj HD (conj HR HM))).
  - exact (conj HK (conj HD (conj HR HM))).
  - exact (conj HK (conj HD (conj HR HM))).
  - exact (conj HK (conj HD (conj HR HM))).
  - (* SResolve *)
    assert (Hopen : ch_closed bt = false).
    { destruct (wf_taken _ _ _ Hwf _ _ Hj) as (bt' & Hb' & Hcl). congruence. }
    assert (Hfb : bat_fn bt = f) by (eapply wf_bat_fn; eauto).
    rewrite Hfb in Hloop.
    assert (Hnf : forall c, (b, c) ∉ fetched w).
    { intros c Hc. destruct (wf_fetched _ _ _ Hwf _ _ Hc) as (bt' & Hb' & Hcl & _).
      congruence. }
    destruct (loop_inv_rtc _ _ _ Hloop) as (Hlen & _ & _ & Hwg & Hex & _ & _).
    destruct (loop_merged_rtc _ _ _ Hloop) as [Hrecv Hfrom].
    split; [|split; [|split]].
    + intros b0 bt0 k Hb0 Hk.
      apply lookup_insert_cases in Hb0 as [[<- <-]|[_ Hb0]]; simpl in Hk; eauto.
    + intros b0 bt0 Hb0. rewrite fetched_of_app.
      apply lookup_insert_cases in Hb0 as [[<- <-]|[Hne Hb0]].
      * right. rewrite fetched_of_none by exact Hnf. rewrite fetched_of_same. simpl.
        exists ks. split; [|split].
        -- rewrite Hperm. apply NoDup_elements.
        -- intros k Hk. rewrite Hperm in Hk. apply elem_of_elements in Hk. exact Hk.
        -- exact Hch.
      * rewrite fetched_of_other by exact Hne. rewrite app_nil_r. eauto.
    + intros b0 bt0 k v Hb0 Hk.
      apply lookup_insert_cases in Hb0 as [[<- <-]|[_ Hb0]].
      * simpl in Hk. destruct (Hfrom _ _ Hk) as [Hold|(i & m & Hi & Hm)].
        -- destruct (HR _ _ _ _ Hb Hold) as (c & Hc & Hrest).
           exists c. split; [apply elem_of_app; left; exact Hc|exact Hrest].
        -- apply list_lookup_fmap_Some in Hi as (c & Hoc & Hci).
           symmetry in Hoc. apply outcome_of_ok in Hoc as [Hn Hm1].
           exists c. split; [|split; [exact Hn|rewrite Hm1; exact Hm]].
           apply elem_of_app. right. apply list_elem_of_In, in_map_iff.
           exists c. split; [reflexivity|]. apply list_elem_of_In.
           eapply list_elem_of_lookup_2. exact Hci.
      * destruct (HR _ _ _ _ Hb0 Hk) as (c & Hc & Hrest).
        exists c. split; [apply elem_of_app; left; exact Hc|exact Hrest].
    + intros b0 bt0 c k Hb0 He Hc Hok Hk. apply elem_of_app in Hc as [Hc|Hc].
      * apply lookup_insert_cases in Hb0 as [[<- <-]|[_ Hb0]];
          [exfalso; exact (Hnf c Hc)|eauto].
      * apply elem_of_pair_map in Hc as [-> Hc].
        apply lookup_insert_cases in Hb0 as [[_ <-]|[Hne _]]; [|congruence].
        simpl in He |- *.
        apply list_elem_of_lookup_1 in Hc as [i Hci].
        assert (Hall : Forall (fun p => p = None) (pending s))
          by (apply Hwg, Hex; assumption).
        assert (Hlt : (i < length (pending s))%nat).
        { rewrite Hlen, length_map. eapply lookup_lt_Some. exact Hci. }
        apply lookup_lt_is_Some_2 in Hlt as [p Hp].
        rewrite Forall_lookup in Hall. pose proof (Hall _ _ Hp) as Hpn. subst p.
        apply (Hrecv i ((f c).1) k); [|exact Hp|exact Hk].
        rewrite list_lookup_fmap, Hci. simpl. unfold outcome_of. rewrite Hok. reflexivity.
Qed.

Lemma dispatch_reach reqs w :
  rtc (step zero) (init_world f reqs) w -> dispatch_inv f w.
Proof.
  intros Hr. remember (init_world f reqs) as w0 eqn:Hw0.
  assert (Hinit : wf zero f w0 /\ dispatch_inv f w0)
    by (subst; split; [apply wf_init|apply dispatch_init]).
  clear Hw0. induction Hr as [x|x y z Hxy Hyz IH]; [apply Hinit|].
  apply IH. destruct Hinit as [Hw Hd].
  split; [eapply wf_step; eauto|eapply dispatch_step; eauto].
Qed.

Lemma dom_foldl_fill (g : K -> V) (m : gmap K V) (ks : list K) :
  dom (foldl (fun r k => <[k := g k]> r) m ks) = dom m ∪ list_to_set ks.
Proof.
  revert m. induction ks as [|x ks IH]; intros m; simpl.
  - set_solver.
  - rewrite IH, dom_insert_L. set_solver.
Qed.

End WorldExtras.

(** ** Claims *)
Section Claims.
Context `{Countable K} {V E : Type}.
Variable zero : V.
Variable f : @FetchFunc K _ _ V E.

(** C1 (as amended): [LoadMany()] with no keys returns an empty mapping
    together with the window's terminal error; it does not skip the window:
    with no current batch it allocates one and starts its [run] goroutine,
    and the run of a window without keys calls the fetch function exactly
    once, on the empty chunk. *)
Theorem LoadMany_no_keys :
  (forall bt : @batch K _ _ V E, loadmany_result zero bt [] = (∅, err bt)) /\
  (forall (w w' : @world K _ _ V E) i b ks',
     step zero w w' ->
     callers w !! i = Some (CStart []) ->
     currentBatch (loader w) = None ->
     callers w' !! i = Some (CGot b ks') ->
     batches w' = batches w ++ [new_batch (loader w)] /\
     runs w' = runs w ++ [RStart]) /\
  (forall (w w' : @world K _ _ V E) j b bt,
     step zero w w' ->
     runs w !! j = Some (RTaken b) -> runs w' !! j = Some RDone ->
     batches w !! b = Some bt -> keys bt = ∅ -> 0 < batchSize bt ->
     fetched w' = fetched w ++ [(b, [])]).
Proof.
  split; [|split].
  - intros bt. unfold loadmany_result. destruct (err bt); reflexivity.
  - intros w w' i b ks' Hs Hi Hcur Hi'.
    destruct (lock_creates zero w w' i [] b ks' Hs Hi Hcur Hi') as (_ & Hb & Hr & _).
    auto.
  - intros w w' j b bt Hs Hj Hj' Hb Hk Hpos.
    eapply resolve_empty_window; eauto.
Qed.

(** When the fetch function fails on some chunk [c] of window [b], there
    is one error [e], returned by the fetch function on a chunk of that
    window, such that every caller that returned from that window, whatever
    its keys, got the empty mapping and [e] (and [Load] gets [e] too). *)
Theorem window_error_shared reqs (w : @world K _ _ V E) b c e0 :
  rtc (step zero) (init_world f reqs) w ->
  (b, c) ∈ fetched w ->
  (f c).2 = Some e0 ->
  exists e,
    (exists c', (b, c') ∈ fetched w /\ (f c').2 = Some e) /\
    forall i ks r, callers w !! i = Some (CDone b ks r) ->
      r = (∅, Some e) /\ forall k, load_of zero r k = (zero, Some e).
Proof.
  intros Hr Hbc Hfail.
  pose proof (wf_reach zero f reqs w Hr) as [_ _ _ _ _ Hd Hf He _].
  destruct (Hf _ _ Hbc) as (bt & Hb & _ & Herr & _).
  destruct Herr as [e He'] ; [rewrite Hfail; discriminate|].
  exists e. split; [eapply He; eauto|].
  intros i ks r Hi. destruct (Hd _ _ _ _ Hi) as (bt' & Hb' & _ & Hres).
  rewrite Hb in Hb'. injection Hb' as <-.
  unfold loadmany_result in Hres. rewrite He' in Hres. subst r.
  split; [reflexivity|]. intros k. reflexivity.
Qed.

(** C3 (as amended): the fetch calls of a window are exactly the chunks,
    in order, of one duplicate-free list of the window's keys, chunked by the
    [BatchSize] the loader had when the window's batch was allocated (the
    batch keeps that value), whatever later writes to [BatchSize]; the sleep
    of a [run] goroutine lasts the [Delay] the loader has when that goroutine
    starts sleeping. *)
Theorem window_config_capture :
  (forall reqs (w0 w1 w2 : @world K _ _ V E) b bt1,
     rtc (step zero) (init_world f reqs) w0 ->
     step zero w0 w1 ->
     batches w0 !! b = None -> batches w1 !! b = Some bt1 ->
     rtc (step zero) w1 w2 ->
     exists bt2, batches w2 !! b = Some bt2 /\
       batchSize bt2 = BatchSize (loader w0) /\
       (fetched_of b (fetched w2) = [] \/
        exists ks, NoDup ks /\ (forall k, k ∈ ks -> k ∈ keys bt2) /\
          chunk ks (BatchSize (loader w0)) = Some (Ret (fetched_of b (fetched w2))))) /\
  (forall (w w' : @world K _ _ V E) j d,
     step zero w w' -> runs w !! j = Some RStart -> runs w' !! j = Some (RSleep d) ->
     d = Delay (loader w)).
Proof.
  split.
  - intros reqs w0 w1 w2 b bt1 Hr0 Hs Hb0 Hb1 Hr12.
    pose proof (batch_created zero w0 w1 b bt1 Hs Hb0 Hb1) as Hsz1.
    destruct (batchSize_rtc zero w1 w2 b bt1 Hr12 Hb1) as (bt2 & Hb2 & Hsz2).
    assert (Hr2 : rtc (step zero) (init_world f reqs) w2).
    { eapply rtc_trans; [exact Hr0|]. eapply rtc_l; [exact Hs|exact Hr12]. }
    destruct (dispatch_reach zero f reqs w2 Hr2) as (_ & Hdisp & _).
    exists bt2. split; [exact Hb2|]. split; [congruence|].
    rewrite <- Hsz1, <- Hsz2. exact (Hdisp b bt2 Hb2).
  - intros w w' j d Hs Hj Hj'. eapply sleep_reads_delay; eauto.
Qed.

(** C8: when a window resolves without error, the mapping returned by
    [LoadMany] has an entry for every requested key, and a requested key
    absent from every chunk's result map gets the zero value, as does [Load]
    of it, with a nil error. *)
Theorem LoadMany_absent_zero reqs (w : @world K _ _ V E) i b ks r k :
  rtc (step zero) (init_world f reqs) w ->
  callers w !! i = Some (CDone b ks (r, None)) ->
  k ∈ ks ->
  exists v, r !! k = Some v /\
    ((forall c, (b, c) ∈ fetched w -> (f c).1 !! k = None) ->
     v = zero /\ load_of zero (r, @None E) k = (zero, None)).
Proof.
  intros Hr Hi Hk.
  pose proof (wf_reach zero f reqs w Hr) as [_ _ _ _ _ Hd _ _ Hres].
  destruct (Hd _ _ _ _ Hi) as (bt & Hb & _ & Hlm).
  unfold loadmany_result in Hlm. destruct (err bt); [discriminate|].
  injection Hlm as <-.
  eexists. split; [apply (foldl_fill_in (fun k => default zero (results bt !! k))); exact Hk|].
  intros Habs.
  assert (Hnone : results bt !! k = None).
  { destruct (results bt !! k) eqn:Hrk; [|reflexivity].
    destruct (Hres _ _ k Hb) as (c & Hc & _ & Hfc); [rewrite Hrk; eauto|].
    rewrite (Habs c Hc) in Hfc. destruct Hfc; discriminate. }
  rewrite Hnone. split; [reflexivity|].
  unfold load_of. simpl.
  rewrite (foldl_fill_in (fun k => default zero (results bt !! k))) by exact Hk.
  rewrite Hnone. reflexivity.
Qed.

(** C10: [New] never fails: it returns a non-nil loader with [BatchSize]
    1000, [Delay] 5 milliseconds and the given fetch function, and a nil
    error. *)
Theorem New_never_fails :
  exists l, New f = (Some l, None) /\ BatchSize l = 1000 /\
    Delay l = 5 * Millisecond /\ fn l = f /\ currentBatch l = None.
Proof. eexists. repeat split. Qed.

End Claims.

(** C5: for a positive size, [chunk] returns a partition whose
    concatenation, in order, is the input list. *)
Theorem chunk_concat {T} (items : list T) (size : Z) :
  0 < size ->
  exists cs, chunk items size = Some (Ret cs) /\ concat cs = items.
Proof.
  intros Hpos. destruct (chunk_pos items size Hpos) as (cs & Hch & Hcat & _).
  eauto.
Qed.

(** C6: for a positive limit [n], the chunks of a non-empty list have between
    1 and [n] elements; a non-empty list of at most [n] elements is one
    chunk; the empty list gives the single empty chunk (and a window without
    keys calls the fetch function once, on it). *)
Theorem chunk_bounds {T} (items : list T) (n : Z) :
  0 < n ->
  exists cs, chunk items n = Some (Ret cs) /\
    (items <> [] -> Forall (fun c => (1 <= length c)%nat /\ Z.of_nat (length c) <= n) cs) /\
    (items <> [] -> Z.of_nat (length items) <= n -> cs = [items]) /\
    (items = [] -> cs = [[]]).
Proof.
  intros Hpos. destruct (chunk_pos items n Hpos) as (cs & Hch & Hcat & Hsz & Hone).
  exists cs. split; [exact Hch|]. split; [|split].
  - intros Hne. specialize (Hsz Hne). eapply Forall_impl; [exact Hsz|].
    intros c Hc. simpl in Hc. lia.
  - intros _ Hle. apply Hone. exact Hle.
  - intros ->. apply Hone. simpl. lia.
Qed.

(** C9: [chunk] returns normally on every list when the size is positive;
    with a non-positive size it returns on no list: it panics (division by
    zero, negative capacity or negative slice index). *)
Theorem chunk_terminates {T} (size : Z) :
  (0 < size -> forall items : list T, exists cs, chunk items size = Some (Ret cs)) /\
  (size <= 0 -> forall (items : list T) fuel, exists msg,
     chunk_fuel fuel items size = Some (Panic msg)).
Proof.
  split.
  - intros Hpos items. destruct (chunk_pos items size Hpos) as (cs & Hch & _). eauto.
  - intros Hle items fuel. apply chunk_nonpos. exact Hle.
Qed.

(** ** Concrete executions *)
Section Executions.
Local Open Scope nat_scope.

(** C1 counterexample: the only caller calls [LoadMany()] with no keys; a
    batch is allocated, the fetch function is called with the empty chunk,
    and its error is returned to the caller. *)
Lemma LoadMany_no_keys_counterexample :
  exists w, rtc (step 0) (init_world fail_all [[]]) w /\
    length (batches w) = 1 /\ fetched w = [(0, [])] /\
    callers w !! 0 = Some (CDone 0 [] (∅, Some "fetch failed")).
Proof.
  eexists. split.
  - eapply rtc_l. { apply SLockCreate with (i := 0) (ks := []); reflexivity. }
    simpl. eapply rtc_l. { eapply SInsert with (i := 0) (b := 0) (ks := []); reflexivity. }
    simpl. eapply rtc_l. { apply SSleep with (j := 0); reflexivity. }
    simpl. eapply rtc_l. { eapply STake with (j := 0) (b := 0); reflexivity. }
    simpl. eapply rtc_l.
    { eapply SResolve with (j := 0) (b := 0) (ks := []) (cs := [[]]).
      - reflexivity.
      - reflexivity.
      - vm_compute. constructor.
      - reflexivity.
      - eapply rtc_l; [eapply LRecvErr with (i := 0); reflexivity|]. apply rtc_refl.
      - reflexivity. }
    simpl. eapply rtc_l. { eapply SReturn with (i := 0) (b := 0); reflexivity. }
    apply rtc_refl.
  - simpl. split; [reflexivity|]. split; reflexivity.
Qed.

(** Two callers, batch size 1: chunk [[1]] succeeds, chunk [[2]] fails. *)
Lemma trace_partial_failure :
  exists w, rtc (step 0) (init_world fail_on_2 [[1];[2]]) w /\
    fetched w = [(0, [2]); (0, [1])] /\
    callers w !! 0 = Some (CDone 0 [1] (∅, Some "fetch failed")) /\
    callers w !! 1 = Some (CDone 0 [2] (∅, Some "fetch failed")).
Proof.
  eexists. split.
  - eapply rtc_l. { apply SSetBatchSize with (n := 1%Z). }
    simpl. eapply rtc_l. { apply SLockCreate with (i := 0) (ks := [1]); reflexivity. }
    simpl. eapply rtc_l. { apply SLockJoin with (i := 1) (ks := [2]) (b := 0); reflexivity. }
    simpl. eapply rtc_l. { eapply SInsert with (i := 0) (b := 0) (ks := [1]); reflexivity. }
    simpl. eapply rtc_l. { eapply SInsert with (i := 1) (b := 0) (ks := [2]); reflexivity. }
    simpl. eapply rtc_l. { apply SSleep with (j := 0); reflexivity. }
    simpl. eapply rtc_l. { eapply STake with (j := 0) (b := 0); reflexivity. }
    simpl. eapply rtc_l.
    { eapply SResolve with (j := 0) (b := 0) (ks := [2; 1]) (cs := [[2]; [1]]).
      - reflexivity.
      - reflexivity.
      - vm_compute. reflexivity.
      - reflexivity.
      - eapply rtc_l; [eapply LRecvResult with (i := 1); reflexivity|].
        eapply rtc_l; [eapply LRecvErr with (i := 0); reflexivity|]. apply rtc_refl.
      - reflexivity. }
    simpl. eapply rtc_l. { eapply SReturn with (i := 0) (b := 0); reflexivity. }
    simpl. eapply rtc_l. { eapply SReturn with (i := 1) (b := 0); reflexivity. }
    apply rtc_refl.
  - simpl. split; [reflexivity|]. split; reflexivity.
Qed.

(** One caller of [LoadMany(7, 9)]; the fetch function omits key 9. *)
Lemma trace_absent_key :
  exists w r, rtc (step 0) (init_world echo_but_9 [[7;9]]) w /\
    fetched w = [(0, [9; 7])] /\
    callers w !! 0 = Some (CDone 0 [7;9] (r, None)).
Proof.
  do 2 eexists. split.
  - eapply rtc_l. { apply SLockCreate with (i := 0) (ks := [7;9]); reflexivity. }
    simpl. eapply rtc_l. { eapply SInsert with (i := 0) (b := 0) (ks := [7;9]); reflexivity. }
    simpl. eapply rtc_l. { apply SSleep with (j := 0); reflexivity. }
    simpl. eapply rtc_l. { eapply STake with (j := 0) (b := 0); reflexivity. }
    simpl. eapply rtc_l.
    { eapply SResolve with (j := 0) (b := 0) (ks := [9; 7]) (cs := [[9; 7]]).
      - reflexivity.
      - reflexivity.
      - vm_compute. reflexivity.
      - reflexivity.
      - eapply rtc_l; [eapply LRecvResult with (i := 0); reflexivity|].
        eapply rtc_l; [apply LCloseWg; [reflexivity|repeat constructor]|].
        eapply rtc_l; [apply LRecvWg; reflexivity|]. apply rtc_refl.
      - reflexivity. }
    simpl. eapply rtc_l. { eapply SReturn with (i := 0) (b := 0); reflexivity. }
    apply rtc_refl.
  - simpl. split; reflexivity.
Qed.

(** C1 witness: the first critical section of [LoadMany()] allocates a batch. *)
Lemma LoadMany_no_keys_witness :
  step 0 w_empty0 w_empty1 /\
  batches w_empty1 = batches w_empty0 ++ [new_batch (loader w_empty0)] /\
  runs w_empty1 = runs w_empty0 ++ [RStart].
Proof.
  assert (Hs : step 0 w_empty0 w_empty1)
    by (apply (SLockCreate 0 w_empty0 0 []); reflexivity).
  split; [exact Hs|].
  apply (proj1 (proj2 (LoadMany_no_keys (E := string) 0)) w_empty0 w_empty1 0 0 []);
    [exact Hs|reflexivity|reflexivity|reflexivity].
Defined.

(** Witness of [window_error_shared]: callers of keys 1 and 2 share a window
    whose chunk [[2]] fails; both get the empty mapping and the same error. *)
Lemma window_error_shared_witness :
  exists w, rtc (step 0) (init_world fail_on_2 [[1];[2]]) w /\
    (0, [2]) ∈ fetched w /\
    exists e,
      (exists c', (0, c') ∈ fetched w /\ (fail_on_2 c').2 = Some e) /\
      forall i ks r, callers w !! i = Some (CDone 0 ks r) ->
        r = (∅, Some e) /\ forall k, load_of 0 r k = (0, Some e).
Proof.
  destruct trace_partial_failure as (w & Hr & Hf & _).
  exists w. split; [exact Hr|].
  assert (Hin : (0, [2]) ∈ fetched w) by (rewrite Hf; left).
  split; [exact Hin|].
  apply (window_error_shared 0 fail_on_2 [[1];[2]] w 0 [2] "fetch failed");
    [exact Hr|exact Hin|reflexivity].
Defined.

(** C3 counterexample: batch 0 is allocated while [Delay] is 5ms; user code
    then sets [Delay] to 10ms before the run goroutine of batch 0 starts, and
    that goroutine sleeps 10ms while batch 0 is still the current batch. *)
Lemma window_delay_counterexample :
  exists w1 w, rtc (step 0) (init_world echo [[7]]) w1 /\
    batches w1 = [new_batch (new_loader echo)] /\
    currentBatch (loader w1) = Some 0 /\
    Delay (loader w1) = (5 * Millisecond)%Z /\
    rtc (step 0) w1 w /\
    currentBatch (loader w) = Some 0 /\
    runs w = [RSleep (10 * Millisecond)%Z].
Proof.
  do 2 eexists. split; [|split; [|split; [|split; [|split]]]].
  - eapply rtc_l. { apply SLockCreate with (i := 0) (ks := [7]); reflexivity. }
    apply rtc_refl.
  - reflexivity.
  - reflexivity.
  - reflexivity.
  - simpl. eapply rtc_l. { apply SSetDelay with (d := (10 * Millisecond)%Z). }
    simpl. eapply rtc_l. { apply SSleep with (j := 0); reflexivity. }
    apply rtc_refl.
  - split; reflexivity.
Qed.

(** Batch 0 is allocated for [LoadMany(7, 9)] while [BatchSize] is 1000;
    user code then sets [BatchSize] to 1, and the window is still fetched in
    one chunk. *)
Lemma trace_batch_size_write :
  exists w1 w2, step 0 (init_world echo [[7;9]]) w1 /\
    batches w1 !! 0 = Some (new_batch (new_loader echo)) /\
    rtc (step 0) w1 w2 /\ BatchSize (loader w2) = 1%Z /\ fetched w2 = [(0, [9;7])].
Proof.
  do 2 eexists. split; [|split; [|split]].
  - apply SLockCreate with (i := 0) (ks := [7;9]); reflexivity.
  - reflexivity.
  - simpl. eapply rtc_l. { apply SSetBatchSize with (n := 1%Z). }
    simpl. eapply rtc_l. { eapply SInsert with (i := 0) (b := 0) (ks := [7;9]); reflexivity. }
    simpl. eapply rtc_l. { apply SSleep with (j := 0); reflexivity. }
    simpl. eapply rtc_l. { eapply STake with (j := 0) (b := 0); reflexivity. }
    simpl. eapply rtc_l.
    { eapply SResolve with (j := 0) (b := 0) (ks := [9; 7]) (cs := [[9; 7]]).
      - reflexivity.
      - reflexivity.
      - vm_compute. reflexivity.
      - reflexivity.
      - eapply rtc_l; [eapply LRecvResult with (i := 0); reflexivity|].
        eapply rtc_l; [apply LCloseWg; [reflexivity|repeat constructor]|].
        eapply rtc_l; [apply LRecvWg; reflexivity|]. apply rtc_refl.
      - reflexivity. }
    apply rtc_refl.
  - split; reflexivity.
Qed.

(** C3 witness: the window of [trace_batch_size_write] is chunked by 1000,
    the [BatchSize] at its allocation; and the run goroutine of a fresh batch
    reads [Delay]. *)
Lemma window_config_capture_witness :
  (exists w2, BatchSize (loader w2) = 1%Z /\ fetched w2 = [(0, [9;7])] /\
     exists bt2, batches w2 !! 0 = Some bt2 /\ batchSize bt2 = 1000%Z /\
       (fetched_of 0 (fetched w2) = [] \/
        exists ks, NoDup ks /\ (forall k, k ∈ ks -> k ∈ @keys nat _ _ nat string bt2) /\
          chunk ks 1000 = Some (Ret (fetched_of 0 (fetched w2))))) /\
  (step 0 w_fresh w_fresh_asleep /\ defaultDelay = Delay (loader w_fresh)).
Proof.
  split.
  - destruct trace_batch_size_write as (w1 & w2 & Hs & Hb1 & Hr & Hsz & Hf).
    exists w2. split; [exact Hsz|]. split; [exact Hf|].
    exact (proj1 (window_config_capture 0 echo) [[7;9]] (init_world echo [[7;9]])
             w1 w2 0 _ (rtc_refl _ _) Hs eq_refl Hb1 Hr).
  - assert (Hs : step 0 w_fresh w_fresh_asleep) by (apply (SSleep 0 w_fresh 0); reflexivity).
    split; [exact Hs|].
    apply (proj2 (window_config_capture 0 echo) w_fresh w_fresh_asleep 0 defaultDelay);
      [exact Hs|reflexivity|reflexivity].
Defined.

(** C2: caller 1 takes batch 0 while it is current; the only chunk fails,
    and caller 0 returns with the error through the path of [LoadMany] that
    never releases its read lock on [bat.mut].  Caller 1's [bat.mut.Lock()]
    can then never succeed: whatever happens next, caller 1 stays blocked
    and never receives the window's error. *)
Lemma failed_window_joiner_blocked :
  exists w1 w2 w,
    rtc (step 0) (init_world fail_all [[7];[9]]) w1 /\
    currentBatch (loader w1) = Some 0 /\
    step 0 w1 w2 /\ callers w2 !! 1 = Some (CGot 0 [9]) /\
    rtc (step 0) w2 w /\
    (exists bt, batches w !! 0 = Some bt /\ ch_closed bt = true /\
       err bt = Some "fetch failed") /\
    callers w !! 0 = Some (CDone 0 [7] (∅, Some "fetch failed")) /\
    forall w', rtc (step 0) w w' -> callers w' !! 1 = Some (CGot 0 [9]).
Proof.
  do 3 eexists. split; [|split; [|split; [|split; [|split]]]].
  - eapply rtc_l. { apply SLockCreate with (i := 0) (ks := [7]); reflexivity. }
    apply rtc_refl.
  - reflexivity.
  - apply SLockJoin with (i := 1) (ks := [9]) (b := 0); reflexivity.
  - reflexivity.
  - simpl. eapply rtc_l. { eapply SInsert with (i := 0) (b := 0) (ks := [7]); reflexivity. }
    simpl. eapply rtc_l. { apply SSleep with (j := 0); reflexivity. }
    simpl. eapply rtc_l. { eapply STake with (j := 0) (b := 0); reflexivity. }
    simpl. eapply rtc_l.
    { eapply SResolve with (j := 0) (b := 0) (ks := [7]) (cs := [[7]]).
      - reflexivity.
      - reflexivity.
      - vm_compute. reflexivity.
      - reflexivity.
      - eapply rtc_l; [eapply LRecvErr with (i := 0); reflexivity|]. apply rtc_refl.
      - reflexivity. }
    simpl. eapply rtc_l. { eapply SReturn with (i := 0) (b := 0); reflexivity. }
    apply rtc_refl.
  - simpl. split; [eexists; split; [reflexivity|split; reflexivity]|].
    split; [reflexivity|].
    intros w' Hr.
    exact (got_blocked_rtc 0 _ w' 1 0 [9] 0 [7] ∅ "fetch failed" Hr eq_refl eq_refl).
Qed.

(** C4: with two chunks, the first failing, the select loop leaves on the
    error; the second chunk goroutine's send is never received and nothing
    can move any more: that goroutine and the WaitGroup goroutine are blocked
    forever.  The later result is not merged. *)
Lemma run_error_leaks_chunk_task :
  exists s,
    rtc loop_step
      (loop_init [Failed "fetch failed"; Ok (echo [1]).1] (∅ : gmap nat nat)) s /\
    exited s = true /\ lerr s = Some "fetch failed" /\ acc s = ∅ /\
    pending s !! 1 = Some (Some (Ok (echo [1]).1)) /\
    forall s', ~ loop_step s s'.
Proof.
  eexists. split; [|split; [|split; [|split; [|split]]]].
  - eapply rtc_l; [eapply LRecvErr with (i := 0); reflexivity|]. apply rtc_refl.
  - reflexivity.
  - reflexivity.
  - reflexivity.
  - reflexivity.
  - intros s' Hs. inversion Hs as [? ? ? Hx|? ? ? Hx|? Hw Hall|? Hx]; subst;
      simpl in *; try discriminate.
    inversion Hall as [|? ? _ Hrest]. inversion Hrest. discriminate.
Qed.

(** C5 witness. *)
Lemma chunk_concat_witness :
  (0 < 2)%Z /\ exists cs, chunk [1;2;3] 2 = Some (Ret cs) /\ concat cs = [1;2;3].
Proof. split; [lia|]. apply chunk_concat. lia. Defined.

(** C6 witness. *)
Lemma chunk_bounds_witness :
  Z.lt 0 2 /\
  exists cs, chunk [1;2;3] 2 = Some (Ret cs) /\
    ([1;2;3] <> [] -> Forall (fun c => 1 <= length c /\ Z.le (Z.of_nat (length c)) 2) cs) /\
    ([1;2;3] <> [] -> Z.le (Z.of_nat (length [1;2;3])) 2 -> cs = [[1;2;3]]) /\
    ([1;2;3] = [] -> cs = [[]]).
Proof. split; [lia|]. apply chunk_bounds. lia. Defined.

(** C9 witness. *)
Lemma chunk_terminates_witness :
  (0 < 2)%Z /\ (exists cs, chunk [1;2;3] 2 = Some (Ret cs)) /\
  (0 <= 0)%Z /\ (exists msg, chunk_fuel 5 [1;2;3] 0 = Some (Panic msg)).
Proof.
  split; [lia|]. split; [apply (proj1 (chunk_terminates 2)); lia|].
  split; [lia|]. apply (proj2 (chunk_terminates 0)). lia.
Defined.

(** C7: caller 1 takes batch 0 while it is current, but adds key 9 only
    after the run goroutine resolved the batch: key 9 is in the batch's key
    set, was never passed to the fetch function, and caller 1 gets the zero
    value with a nil error (the fetch function maps 9 to 10). *)
Lemma late_joiner_key_lost :
  exists w1 w2 w,
    rtc (step 0) (init_world echo [[7];[9]]) w1 /\
    currentBatch (loader w1) = Some 0 /\
    step 0 w1 w2 /\ callers w2 !! 1 = Some (CGot 0 [9]) /\
    rtc (step 0) w2 w /\
    (exists bt, batches w !! 0 = Some bt /\ 9 ∈ keys bt /\ err bt = None) /\
    fetched w = [(0, [7])] /\
    (exists r, callers w !! 0 = Some (CDone 0 [7] (r, None)) /\ r !! 7 = Some 8) /\
    (exists r, callers w !! 1 = Some (CDone 0 [9] (r, None)) /\ r !! 9 = Some 0) /\
    (echo [9]).1 !! 9 = Some 10.
Proof.
  do 3 eexists. split; [|split; [|split; [|split; [|split]]]].
  - eapply rtc_l. { apply SLockCreate with (i := 0) (ks := [7]); reflexivity. }
    apply rtc_refl.
  - reflexivity.
  - apply SLockJoin with (i := 1) (ks := [9]) (b := 0); reflexivity.
  - reflexivity.
  - simpl. eapply rtc_l. { eapply SInsert with (i := 0) (b := 0) (ks := [7]); reflexivity. }
    simpl. eapply rtc_l. { apply SSleep with (j := 0); reflexivity. }
    simpl. eapply rtc_l. { eapply STake with (j := 0) (b := 0); reflexivity. }
    simpl. eapply rtc_l.
    { eapply SResolve with (j := 0) (b := 0) (ks := [7]) (cs := [[7]]).
      - reflexivity.
      - reflexivity.
      - vm_compute. reflexivity.
      - reflexivity.
      - eapply rtc_l; [eapply LRecvResult with (i := 0); reflexivity|].
        eapply rtc_l; [apply LCloseWg; [reflexivity|repeat constructor]|].
        eapply rtc_l; [apply LRecvWg; reflexivity|]. apply rtc_refl.
      - reflexivity. }
    simpl. eapply rtc_l. { eapply SInsert with (i := 1) (b := 0) (ks := [9]); reflexivity. }
    simpl. eapply rtc_l. { eapply SReturn with (i := 1) (b := 0); reflexivity. }
    simpl. eapply rtc_l. { eapply SReturn with (i := 0) (b := 0); reflexivity. }
    apply rtc_refl.
  - simpl. split; [eexists; split; [reflexivity|split; [set_solver|reflexivity]]|].
    split; [reflexivity|].
    split; [eexists; split; [reflexivity|reflexivity]|].
    split; [eexists; split; [reflexivity|reflexivity]|].
    reflexivity.
Qed.

(** C8 witness: key 9 is requested, absent from the only chunk's result,
    and mapped to 0. *)
Lemma LoadMany_absent_zero_witness :
  exists w r,
    rtc (step 0) (init_world echo_but_9 [[7;9]]) w /\
    callers w !! 0 = Some (CDone 0 [7;9] (r, None)) /\
    9 ∈ [7;9] /\
    (forall c, (0, c) ∈ fetched w -> (echo_but_9 c).1 !! 9 = None) /\
    exists v, r !! 9 = Some v /\
      ((forall c, (0, c) ∈ fetched w -> (echo_but_9 c).1 !! 9 = None) ->
       v = 0 /\ load_of 0 (r, @None string) 9 = (0, None)).
Proof.
  destruct trace_absent_key as (w & r & Hr & Hf & Hc).
  exists w, r. split; [exact Hr|]. split; [exact Hc|].
  assert (Hk : 9 ∈ [7;9]) by (right; left).
  split; [exact Hk|]. split.
  - intros c Hin. rewrite Hf in Hin. apply list_elem_of_singleton in Hin.
    injection Hin as Hc0. subst c. reflexivity.
  - apply (LoadMany_absent_zero 0 echo_but_9 [[7;9]] w 0 0 [7;9] r 9);
      [exact Hr|exact Hc|exact Hk].
Defined.

End Executions.

(** ** Further properties of [chunk] *)
Section ChunkShape.
Context {T : Type}.

Lemma chunk_loop_shape (fuel : nat) (items : list T) (size : Z) (chunks : list (list T)) :
  0 < size -> (length items <= fuel)%nat ->
  exists full last,
    chunk_loop fuel items size chunks = Some (Ret (chunks ++ full ++ [last])) /\
    Forall (fun c => length c = Z.to_nat size) full /\
    (length last <= Z.to_nat size)%nat /\
    (items <> [] -> last <> []) /\
    length items = (length full * Z.to_nat size + length last)%nat.
Proof.
  intros Hpos. revert items chunks.
  induction fuel as [|fuel IH]; intros items chunks Hlen; simpl.
  - destruct items; [|simpl in Hlen; lia]. simpl.
    change (Z.of_nat 0) with 0.
    destruct (size <? 0) eqn:E; [apply Z.ltb_lt in E; lia|].
    exists [], []. split; [reflexivity|]. split; [constructor|].
    split; [simpl; lia|]. split; [auto|]. reflexivity.
  - destruct (size <? Z.of_nat (length items)) eqn:Hlt.
    + apply Z.ltb_lt in Hlt.
      destruct (size <? 0) eqn:Hneg; [apply Z.ltb_lt in Hneg; lia|].
      set (n := Z.to_nat size).
      assert (Hn : (0 < n < length items)%nat) by (subst n; lia).
      destruct (IH (skipn n items) (chunks ++ [firstn n items]))
        as (full & last & Hrun & Hfull & Hlast & Hne & Hlen').
      { rewrite length_skipn. lia. }
      exists (firstn n items :: full), last.
      rewrite Hrun, <- app_assoc. split; [reflexivity|].
      rewrite length_skipn in Hlen'.
      split; [constructor; [rewrite length_firstn; lia|exact Hfull]|].
      split; [exact Hlast|]. split.
      * intros _. apply Hne. intros Hnil.
        assert (Hz : length (skipn n items) = 0%nat) by (rewrite Hnil; reflexivity).
        rewrite length_skipn in Hz. lia.
      * simpl. lia.
    + apply Z.ltb_ge in Hlt.
      exists [], items. split; [reflexivity|]. split; [constructor|].
      split; [lia|]. split; [auto|]. simpl. lia.
Qed.

(** For a positive size, [chunk] returns full chunks of exactly [size]
    elements followed by one last chunk of at most [size] elements, which is
    non-empty for a non-empty input; there are then ceil(len/size) chunks. *)
Theorem chunk_shape (items : list T) (size : Z) :
  0 < size ->
  exists full last,
    chunk items size = Some (Ret (full ++ [last])) /\
    Forall (fun c => length c = Z.to_nat size) full /\
    (length last <= Z.to_nat size)%nat /\
    (items <> [] ->
       1 <= length last /\
       length (full ++ [last]) = (length items + Z.to_nat size - 1) / Z.to_nat size)%nat.
Proof.
  intros Hpos. unfold chunk, chunk_fuel.
  destruct (size =? 0) eqn:E0; [apply Z.eqb_eq in E0; lia|].
  destruct (Z.quot (Z.of_nat (length items)) size + 1 <? 0) eqn:Ecap.
  { apply Z.ltb_lt in Ecap.
    assert (0 <= Z.quot (Z.of_nat (length items)) size) by (apply Z.quot_pos; lia).
    lia. }
  destruct (chunk_loop_shape (length items) items size [] Hpos (le_n _))
    as (full & last & Hrun & Hfull & Hlast & Hne & Hlen).
  exists full, last. split; [exact Hrun|]. split; [exact Hfull|].
  split; [exact Hlast|]. intros Hnon. specialize (Hne Hnon).
  assert (H1 : (1 <= length last)%nat) by (destruct last; [congruence|simpl; lia]).
  split; [exact H1|]. rewrite length_app. simpl.
  assert (Hn : (0 < Z.to_nat size)%nat) by lia.
  apply Nat.div_unique with (length last - 1)%nat; nia.
Qed.

End ChunkShape.


(** ** Properties of [LoadMany], [Load] and [run] over whole executions *)
Section WorldTheorems.
Context `{Countable K} {V E : Type}.
Variable zero : V.
Variable f : @FetchFunc K _ _ V E.

(** Two callers that returned from the same batch and both requested [k]
    get the same error and the same entry for [k]; [Load] of [k] gives them
    the same value and error. *)
Theorem callers_agree reqs (w : @world K _ _ V E) i1 i2 b ks1 ks2 r1 r2 k :
  rtc (step zero) (init_world f reqs) w ->
  callers w !! i1 = Some (CDone b ks1 r1) ->
  callers w !! i2 = Some (CDone b ks2 r2) ->
  k ∈ ks1 -> k ∈ ks2 ->
  r1.2 = r2.2 /\ r1.1 !! k = r2.1 !! k /\ load_of zero r1 k = load_of zero r2 k.
Proof.
  intros Hr H1 H2 Hk1 Hk2. pose proof (wf_reach zero f reqs w Hr) as Hwf.
  destruct (wf_done _ _ _ Hwf _ _ _ _ H1) as (bt1 & Hb1 & _ & <-).
  destruct (wf_done _ _ _ Hwf _ _ _ _ H2) as (bt2 & Hb2 & _ & <-).
  rewrite Hb1 in Hb2. injection Hb2 as <-.
  unfold loadmany_result, load_of. destruct (err bt1); simpl; [auto|].
  rewrite !(foldl_fill_in (fun k => default zero (results bt1 !! k))) by assumption.
  auto.
Qed.

(** A caller returns from [LoadMany] only once its batch's channel is
    closed; the error it gets is the batch's; with a nil error the keys of
    its map are exactly the keys it requested, with an error the map is
    empty. *)
Theorem LoadMany_result_keys reqs (w : @world K _ _ V E) i b ks r :
  rtc (step zero) (init_world f reqs) w ->
  callers w !! i = Some (CDone b ks r) ->
  exists bt, batches w !! b = Some bt /\ ch_closed bt = true /\ r.2 = err bt /\
    (err bt = None -> dom r.1 = list_to_set ks) /\
    (err bt <> None -> r.1 = ∅).
Proof.
  intros Hr Hi.
  destruct (wf_done _ _ _ (wf_reach zero f reqs w Hr) _ _ _ _ Hi) as (bt & Hb & Hcl & <-).
  exists bt. split; [exact Hb|]. split; [exact Hcl|].
  unfold loadmany_result. destruct (err bt) as [e|] eqn:He; simpl.
  - split; [reflexivity|]. split; [discriminate|]. intros _. reflexivity.
  - split; [reflexivity|]. split; [|intros Hn; congruence].
    intros _. rewrite dom_foldl_fill, dom_empty_L. set_solver.
Qed.

(** Every value [LoadMany] returns with a nil error is for a requested key,
    and is either a value the fetch function returned for that key on a
    successful chunk of the same batch, or the zero value when no successful
    chunk of the batch returned the key. *)
Theorem LoadMany_value_origin reqs (w : @world K _ _ V E) i b ks r k v :
  rtc (step zero) (init_world f reqs) w ->
  callers w !! i = Some (CDone b ks (r, None)) ->
  r !! k = Some v ->
  k ∈ ks /\
  ((exists c, (b, c) ∈ fetched w /\ (f c).2 = None /\ (f c).1 !! k = Some v) \/
   (v = zero /\ forall c, (b, c) ∈ fetched w -> (f c).2 = None -> (f c).1 !! k = None)).
Proof.
  intros Hr Hi Hk. pose proof (wf_reach zero f reqs w Hr) as Hwf.
  destruct (dispatch_reach zero f reqs w Hr) as (_ & _ & HR & HM).
  destruct (wf_done _ _ _ Hwf _ _ _ _ Hi) as (bt & Hb & _ & Hres).
  unfold loadmany_result in Hres. destruct (err bt) eqn:He; [discriminate|].
  injection Hres as Hr1.
  assert (Hin : k ∈ ks).
  { destruct (decide (k ∈ ks)) as [Hin|Hnin]; [exact Hin|].
    rewrite <- Hr1, (foldl_fill_notin (fun k => default zero (results bt !! k))) in Hk
      by exact Hnin.
    rewrite lookup_empty in Hk. discriminate. }
  split; [exact Hin|].
  rewrite <- Hr1, (foldl_fill_in (fun k => default zero (results bt !! k))) in Hk
    by exact Hin.
  injection Hk as Hv. destruct (results bt !! k) as [v'|] eqn:Hrk; simpl in Hv.
  - subst v'. left. eapply HR; eauto.
  - right. split; [symmetry; exact Hv|]. intros c Hc Hok.
    destruct ((f c).1 !! k) eqn:Hfk; [|reflexivity].
    exfalso. destruct (HM _ _ c k Hb He Hc Hok) as [x Hx]; [rewrite Hfk; eauto|].
    congruence.
Qed.

(** For every batch, the fetch function has been called either not at all
    or on the chunks, in order, of one list of keys, chunked by the batch's
    size: that list has no duplicates, so no key is fetched twice in a
    window, and each of its keys is a key of the batch that some caller of
    the batch requested. *)
Theorem window_dispatch reqs (w : @world K _ _ V E) b bt :
  rtc (step zero) (init_world f reqs) w ->
  batches w !! b = Some bt ->
  (fetched_of b (fetched w) = [] \/
   exists ks, chunk ks (batchSize bt) = Some (Ret (fetched_of b (fetched w))) /\
     concat (fetched_of b (fetched w)) = ks) /\
  NoDup (concat (fetched_of b (fetched w))) /\
  (forall k, k ∈ concat (fetched_of b (fetched w)) ->
     k ∈ keys bt /\ exists i ks, joined (callers w) i b ks /\ k ∈ ks).
Proof.
  intros Hr Hb. destruct (dispatch_reach zero f reqs w Hr) as (HK & HD & _ & _).
  destruct (HD _ _ Hb) as [Hn|(ks & Hnd & Hsub & Hch)].
  - rewrite Hn. simpl. split; [left; reflexivity|]. split; [constructor|].
    intros k Hk. apply elem_of_nil in Hk. contradiction.
  - assert (Hpos : 0 < batchSize bt).
    { destruct (Z_lt_le_dec 0 (batchSize bt)) as [Hp|Hle]; [exact Hp|].
      destruct (chunk_nonpos ks (batchSize bt) (length ks) Hle) as (msg & Hm).
      unfold chunk in Hch. congruence. }
    destruct (chunk_pos ks _ Hpos) as (cs & Hch' & Hcat & _).
    rewrite Hch in Hch'. injection Hch' as <-.
    split; [right; eauto|]. rewrite Hcat. split; [exact Hnd|].
    intros k Hk. split; [apply Hsub; exact Hk|]. eapply HK; eauto.
Qed.

(** The current batch of the loader, which [LoadMany] joins, is open and
    not yet detached by any run goroutine; a batch detached by a run
    goroutine is open until that goroutine closes it, and no two run
    goroutines detach the same batch. *)
Theorem loader_current_open reqs (w : @world K _ _ V E) :
  rtc (step zero) (init_world f reqs) w ->
  (forall b, currentBatch (loader w) = Some b ->
     exists bt, batches w !! b = Some bt /\ ch_closed bt = false /\
       forall j, runs w !! j <> Some (RTaken b)) /\
  (forall j b, runs w !! j = Some (RTaken b) ->
     exists bt, batches w !! b = Some bt /\ ch_closed bt = false) /\
  (forall j j' b, runs w !! j = Some (RTaken b) -> runs w !! j' = Some (RTaken b) -> j = j').
Proof.
  intros Hr. pose proof (wf_reach zero f reqs w Hr) as Hwf. split; [|split].
  - intros b Hb. destruct (wf_current _ _ _ Hwf _ Hb) as [(bt & Hbt & Hcl) Hno]. eauto.
  - exact (wf_taken _ _ _ Hwf).
  - exact (wf_taken_uniq _ _ _ Hwf).
Qed.

End WorldTheorems.

(** ** Concrete executions for the properties above *)
Section MoreExecutions.

(** Two callers, of keys [7] and [7; 9], share one batch fetched by [echo]. *)
Lemma trace_shared_key :
  exists w r1 r2 bt,
    rtc (step 0%nat) (init_world echo [[7%nat]; [7%nat; 9%nat]]) w /\
    callers w !! 0%nat = Some (CDone 0 [7%nat] (r1, None)) /\
    callers w !! 1%nat = Some (CDone 0 [7%nat; 9%nat] (r2, None)) /\
    r1 !! 7%nat = Some 8%nat /\
    batches w !! 0%nat = Some bt.
Proof.
  eexists _, _, _, _. split.
  - eapply rtc_l. { apply SLockCreate with (i := 0%nat) (ks := [7%nat]); reflexivity. }
    simpl. eapply rtc_l.
    { apply SLockJoin with (i := 1%nat) (ks := [7%nat; 9%nat]) (b := 0%nat); reflexivity. }
    simpl. eapply rtc_l.
    { eapply SInsert with (i := 0%nat) (b := 0%nat) (ks := [7%nat]); reflexivity. }
    simpl. eapply rtc_l.
    { eapply SInsert with (i := 1%nat) (b := 0%nat) (ks := [7%nat; 9%nat]); reflexivity. }
    simpl. eapply rtc_l. { apply SSleep with (j := 0%nat); reflexivity. }
    simpl. eapply rtc_l. { eapply STake with (j := 0%nat) (b := 0%nat); reflexivity. }
    simpl. eapply rtc_l.
    { eapply SResolve with (j := 0%nat) (b := 0%nat) (ks := [9%nat; 7%nat])
        (cs := [[9%nat; 7%nat]]).
      - reflexivity.
      - reflexivity.
      - vm_compute. reflexivity.
      - reflexivity.
      - eapply rtc_l; [eapply LRecvResult with (i := 0%nat); reflexivity|].
        eapply rtc_l; [apply LCloseWg; [reflexivity|repeat constructor]|].
        eapply rtc_l; [apply LRecvWg; reflexivity|]. apply rtc_refl.
      - reflexivity. }
    simpl. eapply rtc_l. { eapply SReturn with (i := 0%nat) (b := 0%nat); reflexivity. }
    simpl. eapply rtc_l. { eapply SReturn with (i := 1%nat) (b := 0%nat); reflexivity. }
    apply rtc_refl.
  - split; [reflexivity|]. split; [reflexivity|]. split; [reflexivity|]. reflexivity.
Qed.

Lemma chunk_shape_witness :
  0 < 2 /\
  exists full last,
    chunk [1;2;3;4;5]%nat 2 = Some (Ret (full ++ [last])) /\
    Forall (fun c => length c = Z.to_nat 2) full /\
    (length last <= Z.to_nat 2)%nat /\
    ([1;2;3;4;5]%nat <> [] ->
       1 <= length last /\
       length (full ++ [last]) = (length [1;2;3;4;5] + Z.to_nat 2 - 1) / Z.to_nat 2)%nat.
Proof. split; [lia|]. apply chunk_shape. lia. Defined.

Lemma loop_progress_witness :
  exited (loop_init [Ok (echo [1%nat]).1; Failed "fetch failed"] ∅) = false /\
  exists s', loop_step (loop_init [Ok (echo [1%nat]).1; Failed "fetch failed"] ∅) s'.
Proof. split; [reflexivity|]. apply loop_progress. reflexivity. Defined.

Lemma loop_all_ok_witness :
  exists s,
    rtc loop_step (loop_init [Ok (echo [1%nat]).1; @Ok _ _ _ _ string (echo [2%nat]).1] ∅) s /\
    exited s = true /\ lerr s = None /\ Forall (fun p => p = None) (pending s) /\
    is_Some (acc s !! 1%nat) /\ is_Some (acc s !! 2%nat).
Proof.
  assert (Hr : exists s,
    rtc loop_step (loop_init [Ok (echo [1%nat]).1; @Ok _ _ _ _ string (echo [2%nat]).1] ∅) s /\
    exited s = true).
  { eexists. split.
    - eapply rtc_l; [eapply LRecvResult with (i := 1%nat); reflexivity|].
      eapply rtc_l; [eapply LRecvResult with (i := 0%nat); reflexivity|].
      eapply rtc_l; [apply LCloseWg; [reflexivity|repeat constructor]|].
      eapply rtc_l; [apply LRecvWg; reflexivity|]. apply rtc_refl.
    - reflexivity. }
  destruct Hr as (s & Hr & Hx). exists s. split; [exact Hr|]. split; [exact Hx|].
  destruct (loop_all_ok _ _ s Hr Hx) as (Hl & Hall & Hrecv & _).
  { intros e He. apply list_elem_of_In in He. destruct He as [He|[He|[]]]; discriminate. }
  split; [exact Hl|]. split; [exact Hall|]. split.
  - apply (Hrecv 0%nat (echo [1%nat]).1 1%nat); [reflexivity|]. vm_compute. eauto.
  - apply (Hrecv 1%nat (echo [2%nat]).1 2%nat); [reflexivity|]. vm_compute. eauto.
Defined.

Lemma loop_error_iff_witness :
  exists s,
    rtc loop_step (loop_init [Failed "fetch failed"; Ok (echo [1%nat]).1] ∅) s /\
    exited s = true /\ lerr s = Some "fetch failed" /\
    (lerr s = None <-> forall e, Failed e ∉ [Failed "fetch failed"; Ok (echo [1%nat]).1]) /\
    (forall e, lerr s = Some e -> Failed e ∈ [Failed "fetch failed"; Ok (echo [1%nat]).1]).
Proof.
  assert (Hr : exists s,
    rtc loop_step (loop_init [Failed "fetch failed"; Ok (echo [1%nat]).1] ∅) s /\
    exited s = true /\ lerr s = Some "fetch failed").
  { eexists. split; [|split].
    - eapply rtc_l; [eapply LRecvErr with (i := 0%nat); reflexivity|]. apply rtc_refl.
    - reflexivity.
    - reflexivity. }
  destruct Hr as (s & Hr & Hx & Hl). exists s.
  split; [exact Hr|]. split; [exact Hx|]. split; [exact Hl|].
  exact (loop_error_iff _ _ s Hr Hx).
Defined.

Lemma callers_agree_witness :
  exists w r1 r2,
    rtc (step 0%nat) (init_world echo [[7%nat]; [7%nat; 9%nat]]) w /\
    callers w !! 0%nat = Some (CDone 0 [7%nat] r1) /\
    callers w !! 1%nat = Some (CDone 0 [7%nat; 9%nat] r2) /\
    r1.2 = r2.2 /\ r1.1 !! 7%nat = r2.1 !! 7%nat /\
    load_of 0%nat r1 7%nat = load_of 0%nat r2 7%nat.
Proof.
  destruct trace_shared_key as (w & r1 & r2 & bt & Hr & H1 & H2 & _).
  exists w, (r1, None), (r2, None).
  split; [exact Hr|]. split; [exact H1|]. split; [exact H2|].
  apply (callers_agree 0%nat echo [[7%nat]; [7%nat; 9%nat]] w 0 1 0 [7%nat] [7%nat; 9%nat] _ _ 7%nat);
    [exact Hr|exact H1|exact H2|left|left].
Defined.

Lemma LoadMany_result_keys_witness :
  exists w r,
    rtc (step 0%nat) (init_world echo [[7%nat]; [7%nat; 9%nat]]) w /\
    callers w !! 1%nat = Some (CDone 0 [7%nat; 9%nat] r) /\
    exists bt, batches w !! 0%nat = Some bt /\ ch_closed bt = true /\ r.2 = err bt /\
      (err bt = None -> dom r.1 = list_to_set [7%nat; 9%nat]) /\
      (err bt <> None -> r.1 = ∅).
Proof.
  destruct trace_shared_key as (w & r1 & r2 & bt & Hr & H1 & H2 & _).
  exists w, (r2, None). split; [exact Hr|]. split; [exact H2|].
  apply (LoadMany_result_keys 0%nat echo [[7%nat]; [7%nat; 9%nat]] w 1 0 [7%nat; 9%nat] _); [exact Hr|exact H2].
Defined.

Lemma LoadMany_value_origin_witness :
  exists w r,
    rtc (step 0%nat) (init_world echo [[7%nat]; [7%nat; 9%nat]]) w /\
    callers w !! 0%nat = Some (CDone 0 [7%nat] (r, None)) /\
    r !! 7%nat = Some 8%nat /\
    7%nat ∈ [7%nat] /\
    ((exists c, (0%nat, c) ∈ fetched w /\ (echo c).2 = None /\ (echo c).1 !! 7%nat = Some 8%nat) \/
     (8%nat = 0%nat /\ forall c, (0%nat, c) ∈ fetched w -> (echo c).2 = None ->
        (echo c).1 !! 7%nat = None)).
Proof.
  destruct trace_shared_key as (w & r1 & r2 & bt & Hr & H1 & H2 & H7 & _).
  exists w, r1. split; [exact Hr|]. split; [exact H1|]. split; [exact H7|].
  apply (LoadMany_value_origin 0%nat echo [[7%nat]; [7%nat; 9%nat]] w 0 0 [7%nat] r1 7%nat 8%nat);
    [exact Hr|exact H1|exact H7].
Defined.

Lemma window_dispatch_witness :
  exists w bt,
    rtc (step 0%nat) (init_world echo [[7%nat]; [7%nat; 9%nat]]) w /\
    batches w !! 0%nat = Some bt /\
    (fetched_of 0 (fetched w) = [] \/
     exists ks, chunk ks (batchSize bt) = Some (Ret (fetched_of 0 (fetched w))) /\
       concat (fetched_of 0 (fetched w)) = ks) /\
    NoDup (concat (fetched_of 0 (fetched w))) /\
    (forall k, k ∈ concat (fetched_of 0 (fetched w)) ->
       k ∈ keys bt /\ exists i ks, joined (callers w) i 0 ks /\ k ∈ ks).
Proof.
  destruct trace_shared_key as (w & r1 & r2 & bt & Hr & _ & _ & _ & Hb).
  exists w, bt. split; [exact Hr|]. split; [exact Hb|].
  apply (window_dispatch 0%nat echo [[7%nat]; [7%nat; 9%nat]] w 0 bt); [exact Hr|exact Hb].
Defined.

Lemma loader_current_open_witness :
  rtc (step 0%nat) w_empty0 w_empty1 /\
  (forall b, currentBatch (loader w_empty1) = Some b ->
     exists bt, batches w_empty1 !! b = Some bt /\ ch_closed bt = false /\
       forall j, runs w_empty1 !! j <> Some (RTaken b)) /\
  (forall j b, runs w_empty1 !! j = Some (RTaken b) ->
     exists bt, batches w_empty1 !! b = Some bt /\ ch_closed bt = false) /\
  (forall j j' b, runs w_empty1 !! j = Some (RTaken b) ->
     runs w_empty1 !! j' = Some (RTaken b) -> j = j').
Proof.
  assert (Hr : rtc (step 0%nat) w_empty0 w_empty1).
  { apply rtc_once. apply (SLockCreate 0%nat w_empty0 0 []); reflexivity. }
  split; [exact Hr|].
  apply (loader_current_open 0%nat echo [[]] w_empty1). exact Hr.
Defined.

End MoreExecutions.
